(** * Aggregator: index mappings, containment builder, aggregation engine

    A shallow embedding of [Aggregator/Aggregator.py]:
    - [AggregatorMapping.__init__], [__call__], [save_csv_gz];
    - [Aggregator.__init__] (the containment builder);
    - [load_csv_gz].

    Python integers are [Z]; text is a list of characters (code points
    below 256); a call that can raise returns a [result]; what a call
    prints is returned next to its result.  The library calls the
    module relies on ([csv.writer], [csv.reader], text-mode file
    iteration, [int], [str], numpy indexing with an index list,
    [numpy.where], [numpy.ma.getmaskarray]) are modelled for the
    arguments the module passes to them. *)

From Stdlib Require Import ZArith QArith Ascii String List Sorted Lia Bool.
From stdpp Require Import base option list gmap.

Local Open Scope Z_scope.

(** ** Exceptions and results *)

Abbreviation text := (list ascii).

(** The exceptions the module can raise, with the data their messages
    carry: [ValueError] from [int] names the rejected literal,
    [IndexError] from numpy names the index and the axis size,
    [IndexErrorDtype] is the [IndexError] numpy raises for an index
    array that is not of integer type, [CsvError] is [_csv.Error]. *)
Inductive exn : Type :=
  | ValueError (literal : text)
  | IndexError (index : Z) (axis_size : nat)
  | IndexErrorDtype
  | CsvError.

Inductive result (A : Type) : Type :=
  | Ok (a : A)
  | Raise (e : exn).
Arguments Ok {A} a.
Arguments Raise {A} e.

Definition rbind {A B} (r : result A) (k : A -> result B) : result B :=
  match r with
  | Ok a => k a
  | Raise e => Raise e
  end.

Declare Scope result_scope.
Delimit Scope result_scope with res.
Notation "'let*' x ':=' r 'in' k" := (rbind r (fun x => k))
  (at level 10, x name, r at level 100, k at level 200) : result_scope.
Local Open Scope result_scope.

(** [[f(x) for x in l]] where [f] may raise: the first exception wins. *)
Fixpoint traverse {A B} (f : A -> result B) (l : list A) : result (list B) :=
  match l with
  | [] => Ok []
  | x :: l' =>
      let* y := f x in
      let* ys := traverse f l' in
      Ok (y :: ys)
  end.

(** ** Python's [str] and [int] on integers

    The interpreter's limit on the number of digits of an integer string
    ([sys.set_int_max_str_digits], 4300 by default from Python 3.11) is
    a setting of the interpreter and is taken as off. *)

Module PyInt.

Definition zero_char : ascii := "0"%char.
Definition minus_char : ascii := "-"%char.
Definition plus_char : ascii := "+"%char.
Definition underscore : ascii := "_"%char.

Definition code (c : ascii) : Z := Z.of_nat (nat_of_ascii c).

Definition is_digit (c : ascii) : bool :=
  (48 <=? code c) && (code c <=? 57).

Definition digit_val (c : ascii) : Z := code c - 48.

Definition digit_char (d : Z) : ascii := ascii_of_nat (Z.to_nat (48 + d)).

(** Decimal digits of a non-negative integer, most significant first.
    [fuel] bounds the number of digits. *)
Fixpoint digits_fuel (fuel : nat) (n : Z) (acc : text) : text :=
  match fuel with
  | O => acc
  | S f =>
      if n <? 10 then digit_char n :: acc
      else digits_fuel f (n / 10) (digit_char (n mod 10) :: acc)
  end.

Definition digits (n : Z) : text :=
  digits_fuel (S (Z.to_nat (Z.log2 n))) n [].

(** [str(z)] for an integer. *)
Definition str (z : Z) : text :=
  if z <? 0 then minus_char :: digits (- z) else digits z.

(** The characters [int] strips from both ends of its argument, among
    the code points below 256: tab to carriage return, the space, and
    the two white-space characters beyond ASCII (U+0085, U+00A0). The
    separators U+001C to U+001F are not stripped. *)
Definition is_space (c : ascii) : bool :=
  let k := code c in
  ((9 <=? k) && (k <=? 13)) || (k =? 32) || (k =? 133) || (k =? 160).

Fixpoint lstrip (s : text) : text :=
  match s with
  | c :: s' => if is_space c then lstrip s' else s
  | [] => []
  end.

Definition strip (s : text) : text := rev (lstrip (rev (lstrip s))).

(** The digits after the first one: single underscores may separate
    digits. *)
Fixpoint int_digits (acc : Z) (s : text) : option Z :=
  match s with
  | [] => Some acc
  | c :: s' =>
      if is_digit c then int_digits (10 * acc + digit_val c) s'
      else if Ascii.eqb c underscore then
        match s' with
        | d :: s'' =>
            if is_digit d then int_digits (10 * acc + digit_val d) s''
            else None
        | [] => None
        end
      else None
  end.

Definition int_unsigned (s : text) : option Z :=
  match s with
  | d :: s' => if is_digit d then int_digits (digit_val d) s' else None
  | [] => None
  end.

Definition int_literal (s : text) : option Z :=
  match strip s with
  | c :: s' =>
      if Ascii.eqb c minus_char then Z.opp <$> int_unsigned s'
      else if Ascii.eqb c plus_char then int_unsigned s'
      else int_unsigned (c :: s')
  | [] => None
  end.

(** [int(s)] for a string: the value, or [ValueError] naming [s]. *)
Definition int (s : text) : result Z :=
  match int_literal s with
  | Some z => Ok z
  | None => Raise (ValueError s)
  end.

End PyInt.

(** ** Text-mode files

    [gzip.open(filename, 'wt')] and [gzip.open(filename, 'rt')] wrap the
    compressed stream in a text layer with the default [newline=None].
    Compression is lossless, so a file is modelled by its decompressed
    text.  On writing, the text layer
    replaces each line feed by [os.linesep], which the platform fixes.
    On reading, universal newlines apply: a line ends at a line feed, at
    a carriage return, or at a carriage return followed by a line feed,
    and each is handed over as one line feed. *)

Module TextIO.

Definition LF : ascii := ascii_of_nat 10.
Definition CR : ascii := ascii_of_nat 13.

Definition posix_linesep : text := [LF].
Definition windows_linesep : text := [CR; LF].

Definition write (os_linesep : text) (s : text) : text :=
  flat_map (fun c => if Ascii.eqb c LF then os_linesep else [c]) s.

(** Iterating over a file opened for reading: its lines, each with its
    (translated) line end, the last one possibly without. *)
Fixpoint iter_lines (s : text) : list text :=
  match s with
  | [] => []
  | c :: s' =>
      if Ascii.eqb c LF then [LF] :: iter_lines s'
      else if Ascii.eqb c CR then
        match s' with
        | d :: s'' =>
            if Ascii.eqb d LF then [LF] :: iter_lines s''
            else [LF] :: iter_lines s'
        | [] => [[LF]]
        end
      else
        match iter_lines s' with
        | l :: ls => (c :: l) :: ls
        | [] => [[c]]
        end
  end.

End TextIO.

(** ** The csv module, default ([excel]) dialect

    The reader's limit on the length of a field
    ([csv.field_size_limit], 131072 characters by default) is a setting
    of the module and is not modelled: the reader below is the reader
    on files whose fields stay under the limit.

    Delimiter [,], quote character the double quote, [doublequote] on,
    no escape character, [skipinitialspace] off, line terminator CR LF,
    [QUOTE_MINIMAL], not strict. *)

Module Csv.

Definition delimiter : ascii := ","%char.
Definition quotechar : ascii := ascii_of_nat 34.
Definition lineterminator : text := [TextIO.CR; TextIO.LF].

(** *** Writer *)

Definition special (c : ascii) : bool :=
  Ascii.eqb c delimiter || Ascii.eqb c quotechar
  || Ascii.eqb c TextIO.CR || Ascii.eqb c TextIO.LF.

Definition needs_quote (f : text) : bool := existsb special f.

Fixpoint double_quotes (f : text) : text :=
  match f with
  | [] => []
  | c :: f' =>
      if Ascii.eqb c quotechar then quotechar :: quotechar :: double_quotes f'
      else c :: double_quotes f'
  end.

Definition render_field (f : text) : text :=
  if needs_quote f then quotechar :: double_quotes f ++ [quotechar] else f.

Fixpoint join_fields (fs : list text) : text :=
  match fs with
  | [] => []
  | f :: fs' =>
      match fs' with
      | [] => render_field f
      | _ :: _ => render_field f ++ delimiter :: join_fields fs'
      end
  end.

(** A record made of one empty field is written as an empty quoted
    field, so that it differs from an empty record. *)
Definition writerow (row : list text) : text :=
  match row with
  | [ [] ] => quotechar :: quotechar :: lineterminator
  | _ => join_fields row ++ lineterminator
  end.

Definition writerows (rows : list (list text)) : text :=
  concat (map writerow rows).

(** *** Reader *)

Inductive parser_state : Type :=
  | START_RECORD
  | START_FIELD
  | IN_FIELD
  | IN_QUOTED_FIELD
  | QUOTE_IN_QUOTED_FIELD
  | EAT_CRNL.

Record reader : Type := mkReader {
  state : parser_state;
  field : text;
  fields : list text
}.

Definition parse_reset : reader :=
  {| state := START_RECORD; field := []; fields := [] |}.

Definition parse_save_field (r : reader) : reader :=
  {| state := state r; field := []; fields := fields r ++ [field r] |}.

Definition parse_add_char (r : reader) (c : ascii) : reader :=
  {| state := state r; field := field r ++ [c]; fields := fields r |}.

Definition set_state (r : reader) (st : parser_state) : reader :=
  {| state := st; field := field r; fields := fields r |}.

Definition is_newline (c : ascii) : bool :=
  Ascii.eqb c TextIO.LF || Ascii.eqb c TextIO.CR.

(** One step of the parser; [None] is the end-of-line marker the
    reader feeds after the last character of each line. *)
Definition start_field (r : reader) (c : option ascii) : result reader :=
  match c with
  | None => Ok (set_state (parse_save_field r) START_RECORD)
  | Some c =>
      if is_newline c then Ok (set_state (parse_save_field r) EAT_CRNL)
      else if Ascii.eqb c quotechar then Ok (set_state r IN_QUOTED_FIELD)
      else if Ascii.eqb c delimiter then Ok (parse_save_field r)
      else Ok (set_state (parse_add_char r c) IN_FIELD)
  end.

Definition parse_process_char (r : reader) (c : option ascii) : result reader :=
  match state r with
  | START_RECORD =>
      match c with
      | None => Ok r
      | Some ch =>
          if is_newline ch then Ok (set_state r EAT_CRNL)
          else start_field (set_state r START_FIELD) c
      end
  | START_FIELD => start_field r c
  | IN_FIELD =>
      match c with
      | None => Ok (set_state (parse_save_field r) START_RECORD)
      | Some ch =>
          if is_newline ch then Ok (set_state (parse_save_field r) EAT_CRNL)
          else if Ascii.eqb ch delimiter then
            Ok (set_state (parse_save_field r) START_FIELD)
          else Ok (parse_add_char r ch)
      end
  | IN_QUOTED_FIELD =>
      match c with
      | None => Ok r
      | Some ch =>
          if Ascii.eqb ch quotechar then Ok (set_state r QUOTE_IN_QUOTED_FIELD)
          else Ok (parse_add_char r ch)
      end
  | QUOTE_IN_QUOTED_FIELD =>
      match c with
      | None => Ok (set_state (parse_save_field r) START_RECORD)
      | Some ch =>
          if Ascii.eqb ch quotechar then
            Ok (set_state (parse_add_char r ch) IN_QUOTED_FIELD)
          else if Ascii.eqb ch delimiter then
            Ok (set_state (parse_save_field r) START_FIELD)
          else if is_newline ch then
            Ok (set_state (parse_save_field r) EAT_CRNL)
          else Ok (set_state (parse_add_char r ch) IN_FIELD)
      end
  | EAT_CRNL =>
      match c with
      | None => Ok (set_state r START_RECORD)
      | Some ch => if is_newline ch then Ok r else Raise CsvError
      end
  end.

Fixpoint process_chars (r : reader) (l : text) : result reader :=
  match l with
  | [] => Ok r
  | c :: l' =>
      let* r' := parse_process_char r (Some c) in
      process_chars r' l'
  end.

Definition process_line (r : reader) (l : text) : result reader :=
  let* r' := process_chars r l in
  parse_process_char r' None.

Definition pending (r : reader) : bool :=
  match field r, state r with
  | _ :: _, _ => true
  | [], IN_QUOTED_FIELD => true
  | [], _ => false
  end.

(** Iterating over [csv.reader(lines)]: the records it yields, in
    order, and the exception that ends the iteration, if any.  A
    record is complete when a line leaves the parser in
    [START_RECORD]; a quoted field may run over several lines.  At the
    end of the input a record in progress is yielded as it stands. *)
Fixpoint iternext (r : reader) (lines : list text)
    : list (list text) * option exn :=
  match lines with
  | [] => if pending r then ([fields (parse_save_field r)], None) else ([], None)
  | l :: ls =>
      match process_line r l with
      | Raise e => ([], Some e)
      | Ok r' =>
          match state r' with
          | START_RECORD =>
              let '(recs, e) := iternext parse_reset ls in
              (fields r' :: recs, e)
          | _ => iternext r' ls
          end
      end
  end.

Definition reader_records (lines : list text) : list (list text) * option exn :=
  iternext parse_reset lines.

End Csv.

(** ** Progress reports

    Both loops print [Retrieved mappings for n of size polygons] when
    [progress] is truthy and divides the running count, and a closing
    line when [progress] is truthy. [progress] is [False] by default
    ([None] here, as falsy as [0]) or an integer. *)

Inductive message : Type :=
  | Retrieved (n : Z) (size : nat)
  | AggregationCompleted
  | MappingCompleted.

Definition truthy (progress : option Z) : bool :=
  match progress with
  | Some p => negb (p =? 0)
  | None => false
  end.

(** [if progress: if n % progress == 0: print(...)] *)
Definition report (progress : option Z) (n : Z) (size : nat) : list message :=
  match progress with
  | Some p =>
      if negb (p =? 0) then
        if n mod p =? 0 then [Retrieved n size] else []
      else []
  | None => []
  end.

Definition closing (progress : option Z) (m : message) : list message :=
  if truthy progress then [m] else [].

(** ** AggregatorMapping *)

Record AggregatorMapping : Type := mkAggregatorMapping {
  indices : list (list Z);
  size : nat
}.

(** [AggregatorMapping.__init__]: the outer sequence is copied into a
    new list, element by element; [size] is its length. *)
Definition AggregatorMapping_init (indices : list (list Z)) : AggregatorMapping :=
  let self_indices := map (fun idx => idx) indices in
  {| indices := self_indices; size := length self_indices |}.

(** A fine array: one entry per point, [None] where the entry is masked.
    An array without a mask has no [None]. *)
Abbreviation FineArray V := (list (option V)).

(** A reduction: from the gathered entries to a value, or to the masked
    constant ([None]). *)
Abbreviation Reduction V := (FineArray V -> option V).

Section Call.

Context {V : Type}.

(** [data[i]] for one entry of an index list: numpy counts a negative
    index from the end and raises [IndexError] outside
    [-len(data) <= i < len(data)]. *)
Definition getitem (data : FineArray V) (i : Z) : result (option V) :=
  let len := Z.of_nat (length data) in
  let j := if i <? 0 then i + len else i in
  if (0 <=? j) && (j <? len) then
    match data !! Z.to_nat j with
    | Some x => Ok x
    | None => Raise (IndexError i (length data))
    end
  else Raise (IndexError i (length data)).

(** The range of numpy's index type, the signed 64-bit integer, and of
    the unsigned 64-bit integer. *)
Definition in_int64 (i : Z) : bool := (- 2 ^ 63 <=? i) && (i <? 2 ^ 63).
Definition in_uint64 (i : Z) : bool := (0 <=? i) && (i <? 2 ^ 64).

(** The cast of an unsigned 64-bit integer to the index type: the
    integers from [2^63] on wrap around. *)
Definition to_intp (i : Z) : Z := if 2 ^ 63 <=? i then i - 2 ^ 64 else i.

(** The entries [data] has a place for. *)
Definition within (data : FineArray V) (i : Z) : bool :=
  (- Z.of_nat (length data) <=? i) && (i <? Z.of_nat (length data)).

(** [data[idn]] for an index list. numpy makes an array of the list and
    casts it to its index type before it looks at the bounds:
    - a list of integers of the index type is read entry by entry (so
      is every list whose entries are all within the array, an array
      having fewer than [2^63] entries);
    - a list of integers from [0] to [2^64 - 1] with an entry from
      [2^63] on makes an array of unsigned integers, and the cast wraps
      those entries around: [2^64 - 1] is read as [-1];
    - any other list (an entry beyond 64 bits, or a negative entry
      beside one from [2^63] on) makes no integer array, and indexing
      raises [IndexError]. *)
Definition take (data : FineArray V) (idn : list Z) : result (FineArray V) :=
  if forallb (within data) idn || forallb in_int64 idn then
    traverse (getitem data) idn
  else if forallb in_uint64 idn then
    traverse (getitem data) (map to_intp idn)
  else Raise IndexErrorDtype.

(** [where(getmaskarray(aggregates), fv, aggregates)] for one value. *)
Definition where_masked (fv : V) (aggregates : option V) : V :=
  match aggregates with
  | Some v => v
  | None => fv
  end.

(** [coarseData[n] = v] *)
Definition setitem (coarseData : list V) (n : nat) (v : V) : result (list V) :=
  if (n <? length coarseData)%nat then Ok (<[n := v]> coarseData)
  else Raise (IndexError (Z.of_nat n) (length coarseData)).

(** The loop of [__call__] from cell [n] on; [out] is what has been
    printed so far. *)
Fixpoint call_loop (data : FineArray V) (method : Reduction V) (fv : V)
    (progress : option Z) (self_size : nat) (n : nat) (idx : list (list Z))
    (coarseData : list V) (out : list message)
    : result (list V) * list message :=
  match idx with
  | [] => (Ok coarseData, out)
  | idn :: rest =>
      let out := out ++ report progress (Z.of_nat n) self_size in
      match idn with
      | [] => call_loop data method fv progress self_size (S n) rest coarseData out
      | _ :: _ =>
          match (let* gathered := take data idn in
                 let aggregates := method gathered in
                 setitem coarseData n (where_masked fv aggregates)) with
          | Ok coarseData' =>
              call_loop data method fv progress self_size (S n) rest coarseData' out
          | Raise e => (Raise e, out)
          end
      end
  end.

(** [AggregatorMapping.__call__]: the coarse array, or the exception,
    and the lines printed. [fv * ones(size)] is [size] copies of [fv]. *)
Definition AggregatorMapping_call (self : AggregatorMapping) (data : FineArray V)
    (method : Reduction V) (fv : V) (progress : option Z)
    : result (list V) * list message :=
  let coarseData := replicate (size self) fv in
  match call_loop data method fv progress (size self) 0 (indices self) coarseData [] with
  | (Ok coarseData, out) => (Ok coarseData, out ++ closing progress AggregationCompleted)
  | (Raise e, out) => (Raise e, out)
  end.

End Call.

(** [save_csv_gz]: one row per index list, each entry written as [str]
    gives it. The result is the text of the file, on a platform whose
    line separator is [os_linesep]. *)
Definition save_csv_gz (os_linesep : text) (self : AggregatorMapping) : text :=
  TextIO.write os_linesep (Csv.writerows (map (map PyInt.str) (indices self))).

(** [load_csv_gz]: [[[int(n) for n in line] for line in csv]], then the
    mapping. The rows are converted as the reader yields them, so an
    exception of the reader comes after the rows before it. *)
Definition load_csv_gz (file : text) : result AggregatorMapping :=
  let '(rows, stop) := Csv.reader_records (TextIO.iter_lines file) in
  let* idx := traverse (traverse PyInt.int) rows in
  match stop with
  | Some e => Raise e
  | None => Ok (AggregatorMapping_init idx)
  end.

(** ** Aggregator: the containment builder

    Coordinates are rationals. The loop asks of a bounding box only
    whether its width and its height are zero, which for finite
    floating-point coordinates holds exactly when the two bounds are
    equal. *)

Definition Point : Type := Q * Q.

Module Bbox.
Record t : Type := mk { x0 : Q; y0 : Q; x1 : Q; y1 : Q }.

(** [Bbox.size]: width and height. *)
Definition size (b : t) : Q * Q := ((x1 b - x0 b)%Q, (y1 b - y0 b)%Q).

(** [ndarray.any] on the two entries: some entry is not zero. *)
Definition any (v : Q * Q) : bool :=
  negb (Qeq_bool (fst v) 0) || negb (Qeq_bool (snd v) 0).
End Bbox.

(** What the builder asks of a path: its extents and the containment
    test of one point ([contains_points] applies it to every point). *)
Class PathOps (Path : Type) : Type := {
  get_extents : Path -> Bbox.t;
  contains_point : Path -> Point -> bool
}.

(** [numpy.where(mask)[0]]: the positions of the true entries, from
    position [i] on. *)
Fixpoint where_from (i : nat) (mask : list bool) : list Z :=
  match mask with
  | [] => []
  | b :: mask' =>
      if b then Z.of_nat i :: where_from (S i) mask'
      else where_from (S i) mask'
  end.

Definition np_where (mask : list bool) : list Z := where_from 0 mask.

Section Builder.

Context {Path : Type} `{PathOps Path}.

(** [path.contains_points(points)] for [points] that numpy reads as an
    array of coordinate pairs: one answer per point. (The empty Python
    list is not read as such an array, and matplotlib rejects it.) *)
Definition contains_points (path : Path) (points : list Point) : list bool :=
  map (contains_point path) points.

(** The state of the loop: the lists being filled, the counter [n],
    the lines printed, and the positions of the paths on which
    [contains_points] was called. *)
Record build_state : Type := mkBuild {
  idx : list (list Z);
  counter : Z;
  out : list message;
  scanned : list nat
}.

(** One iteration, for the path at position [i] and its list
    [idx[i]], which [extend] changes in place. *)
Definition build_step (points : list Point) (progress : option Z)
    (self_size : nat) (i : nat) (path : Path) (st : build_state) : build_state :=
  let st :=
    if truthy progress then
      {| idx := idx st; counter := counter st + 1;
         out := out st ++ report progress (counter st) self_size;
         scanned := scanned st |}
    else st in
  if Bbox.any (Bbox.size (get_extents path)) then
    let inside := np_where (contains_points path points) in
    let st := {| idx := idx st; counter := counter st; out := out st;
                 scanned := scanned st ++ [i] |} in
    if (0 <? length inside)%nat then
      {| idx := alter (fun idn => idn ++ inside) i (idx st);
         counter := counter st; out := out st; scanned := scanned st |}
    else st
  else st.

Fixpoint build_loop (points : list Point) (progress : option Z)
    (self_size : nat) (i : nat) (paths : list Path) (st : build_state)
    : build_state :=
  match paths with
  | [] => st
  | path :: rest =>
      build_loop points progress self_size (S i) rest
        (build_step points progress self_size i path st)
  end.

Definition build (paths : list Path) (points : list Point)
    (progress : option Z) : build_state :=
  let self_size := length paths in
  let idx := replicate self_size [] in
  build_loop points progress self_size 0 paths
    {| idx := idx; counter := 0; out := []; scanned := [] |}.

Record Aggregator : Type := mkAggregator {
  mapping : AggregatorMapping;
  points : list Point;
  paths : list Path
}.

(** [Aggregator.__init__]: the object and the lines printed. *)
Definition Aggregator_init (paths : list Path) (points : list Point)
    (progress : option Z) : Aggregator * list message :=
  let st := build paths points progress in
  ({| mapping := {| indices := idx st; size := length paths |};
      points := points; paths := paths |},
   out st ++ closing progress MappingCompleted).

End Builder.

(** ** The constructor on shared objects

    The caller of [AggregatorMapping.__init__] keeps the objects it
    passed in. Lists are objects in a heap; a list holds integers or
    references to other objects. *)

Module Store.

Definition loc : Type := positive.

Inductive value : Type :=
  | VInt (z : Z)
  | VRef (l : loc).

Abbreviation heap := (gmap loc (list value)).

Record object : Type := mkObject {
  self_indices : loc;
  self_size : nat
}.

(** [self.indices = [idx for idx in indices]; self.size = len(self.indices)]:
    a new list object that holds the elements of the argument. *)
Definition init (h : heap) (arg : loc) : option (heap * object) :=
  match h !! arg with
  | Some elems =>
      let l := fresh (dom h) in
      let copy := map (fun idx => idx) elems in
      Some (<[l := copy]> h, {| self_indices := l; self_size := length copy |})
  | None => None
  end.

Definition as_int (v : value) : option Z :=
  match v with
  | VInt z => Some z
  | VRef _ => None
  end.

(** The integers of the list a value refers to. *)
Definition read_list (h : heap) (v : value) : option (list Z) :=
  match v with
  | VRef l =>
      match h !! l with
      | Some elems => mapM as_int elems
      | None => None
      end
  | VInt _ => None
  end.

(** The index lists of a mapping, as [__call__] and [save_csv_gz]
    find them in heap [h]. *)
Definition read_indices (h : heap) (self : object) : option (list (list Z)) :=
  match h !! self_indices self with
  | Some elems => mapM (read_list h) elems
  | None => None
  end.

(** Any in-place change of the list at [l]: [append], [extend],
    [pop], [clear], item assignment, ... *)
Definition mutate (f : list value -> list value) (l : loc) (h : heap) : heap :=
  alter f l h.

(** The objects the caller passed in: the argument and the objects
    its elements refer to. *)
Definition passed_in (h : heap) (arg : loc) (l : loc) : Prop :=
  l = arg \/ exists elems, h !! arg = Some elems /\ VRef l ∈ elems.

End Store.

(** ** Instances *)

(** [numpy.ma.median] on rationals: masked entries are left out; the
    middle of the sorted rest, or the mean of the two middle entries;
    masked when nothing is left. *)
Module Median.

Fixpoint insert_sorted (x : Q) (l : list Q) : list Q :=
  match l with
  | [] => [x]
  | y :: l' => if Qle_bool x y then x :: l else y :: insert_sorted x l'
  end.

Definition sort (l : list Q) : list Q := foldr insert_sorted [] l.

Definition compressed (a : list (option Q)) : list Q := omap (fun x => x) a.

Definition median (a : list (option Q)) : option Q :=
  let s := sort (compressed a) in
  let n := length s in
  if (n =? 0)%nat then None
  else if Nat.odd n then s !! (n / 2)%nat
  else
    match s !! (n / 2 - 1)%nat, s !! (n / 2)%nat with
    | Some a, Some b => Some ((a + b) / 2)%Q
    | _, _ => None
    end.

End Median.

(** A polygon given by its vertices (at least one), closed back to the
    first; its extents are the least and greatest coordinates; a point
    is inside when the polygon has at least three vertices and a ray
    from the point crosses the boundary an odd number of times. *)
Module Polygon.

Record t : Type := mk { first : Point; others : list Point }.

Definition qmin (a b : Q) : Q := if Qle_bool a b then a else b.
Definition qmax (a b : Q) : Q := if Qle_bool a b then b else a.

Definition extents (p : t) : Bbox.t :=
  foldl (fun b v =>
           Bbox.mk (qmin (Bbox.x0 b) (fst v)) (qmin (Bbox.y0 b) (snd v))
                   (qmax (Bbox.x1 b) (fst v)) (qmax (Bbox.y1 b) (snd v)))
        (Bbox.mk (fst (first p)) (snd (first p)) (fst (first p)) (snd (first p)))
        (others p).

(** Does the ray from [pt] towards greater x cross the edge from
    [v0] to [v1]? *)
Definition crosses (pt v0 v1 : Point) : bool :=
  let yflag0 := Qle_bool (snd pt) (snd v0) in
  let yflag1 := Qle_bool (snd pt) (snd v1) in
  if Bool.eqb yflag0 yflag1 then false
  else
    Bool.eqb
      (Qle_bool ((fst v1 - fst pt) * (snd v0 - snd v1))
                ((snd v1 - snd pt) * (fst v0 - fst v1)))%Q
      yflag1.

Fixpoint crossings (pt v0 : Point) (vs : list Point) (start : Point) : bool :=
  match vs with
  | [] => crosses pt v0 start
  | v1 :: vs' => xorb (crosses pt v0 v1) (crossings pt v1 vs' start)
  end.

(** A path of fewer than three vertices contains no point. *)
Definition contains (p : t) (pt : Point) : bool :=
  if (length (others p) <? 2)%nat then false
  else crossings pt (first p) (others p) (first p).

End Polygon.

#[export] Instance polygon_path : PathOps Polygon.t :=
  {| get_extents := Polygon.extents; contains_point := Polygon.contains |}.

Definition text_of_string (s : String.string) : text :=
  String.list_ascii_of_string s.

(** One line of a file as the writer ends it. *)
Definition file_line (s : String.string) : text :=
  text_of_string s ++ Csv.lineterminator.

(** ** Derived notions used in the statements and proofs *)

(** Reading a decimal numeral one digit further. *)
Definition step (a : Z) (c : ascii) : Z := 10 * a + PyInt.digit_val c.

(** A field the writer leaves unquoted and the reader takes as it is. *)
Definition plain (f : text) : Prop :=
  f <> [] /\ Forall (fun c => Csv.special c = false) f.

(** The text of one row of plain fields, before the line terminator. *)
Fixpoint joined (fs : list text) : text :=
  match fs with
  | [] => []
  | f :: fs' =>
      match fs' with
      | [] => f
      | _ :: _ => f ++ Csv.delimiter :: joined fs'
      end
  end.

(** The [IndexError]s of numpy. *)
Definition is_IndexError (e : exn) : Prop :=
  match e with
  | IndexError _ _ | IndexErrorDtype => True
  | ValueError _ | CsvError => False
  end.

(** The indices numpy accepts for an array of length [len]. *)
Definition valid_index (len : nat) (i : Z) : Prop :=
  - Z.of_nat len <= i < Z.of_nat len.

(** Every entry of every index list is accepted by [data]. *)
Definition in_range {V} (data : FineArray V) (idx : list (list Z)) : Prop :=
  Forall (Forall (valid_index (length data))) idx.

(** What one pass of the loop of [__call__] leaves in a cell. *)
Definition cell_value {V} (data : FineArray V) (method : Reduction V)
    (fv : V) (idn : list Z) : result V :=
  match idn with
  | [] => Ok fv
  | _ :: _ =>
      let* gathered := take data idn in
      Ok (where_masked fv (method gathered))
  end.

(** What one pass of the loop of [Aggregator.__init__] leaves in a list. *)
Definition cell_indices {Path} `{PathOps Path} (points : list Point) (path : Path) : list Z :=
  if Bbox.any (Bbox.size (get_extents path)) then
    np_where (contains_points path points)
  else [].

Fixpoint scanned_from {Path} `{PathOps Path} (i : nat) (paths : list Path) : list nat :=
  match paths with
  | [] => []
  | path :: rest =>
      if Bbox.any (Bbox.size (get_extents path)) then i :: scanned_from (S i) rest
      else scanned_from (S i) rest
  end.

Definition width {Path} `{PathOps Path} (path : Path) : Q :=
  fst (Bbox.size (get_extents path)).
Definition height {Path} `{PathOps Path} (path : Path) : Q :=
  snd (Bbox.size (get_extents path)).

(** The position numpy reads for an accepted index [i]. *)
Definition normalize (len : nat) (i : Z) : Z :=
  if i <? 0 then i + Z.of_nat len else i.

(** The progress lines for the cells [first], ..., [first + cells - 1]
    of [total]. *)
Definition reports (progress : option Z) (total : nat) (first cells : nat)
    : list message :=
  flat_map (fun n => report progress (Z.of_nat n) total) (seq first cells).

(** In how many of the lists [idx] the entry [e] occurs. *)
Definition count_lists (e : Z) (idx : list (list Z)) : nat :=
  length (filter (fun idn => e ∈ idn) idx).

(** How many of the paths have some extent and contain [pt]. *)
Definition count_paths {Path} `{PathOps Path} (pt : Point) (paths : list Path) : nat :=
  length (filter (fun path => Bbox.any (Bbox.size (get_extents path)) = true
                              /\ contains_point path pt = true) paths).

(** A token [int] accepts. *)
Definition accepted (tok : text) : Prop := is_Some (PyInt.int_literal tok).

(** Each list followed by an empty one. *)
Definition with_blank_rows (ls : list (list Z)) : list (list Z) :=
  flat_map (fun idn => [idn; []]) ls.

(** A line as the file iterator hands it over: no line end inside, at
    most one line feed at its end. *)
Definition line_shape (l : text) : Prop :=
  exists body, Forall (fun c => Csv.is_newline c = false) body
               /\ (l = body ++ [TextIO.LF] \/ l = body).

(** * Properties *)

(** ** [traverse] *)

Section Traverse.

Context {A B : Type} (f : A -> result B).

Lemma traverse_length l ys :
  traverse f l = Ok ys -> length ys = length l.
Proof.
  revert ys; induction l as [|x l IH]; intros ys; simpl.
  - by intros [= <-].
  - destruct (f x) as [y|e]; simpl; [|done].
    destruct (traverse f l) as [ys'|e]; simpl; [|done].
    intros [= <-]. simpl. f_equal. by apply IH.
Qed.

Lemma traverse_lookup l ys k x :
  traverse f l = Ok ys -> l !! k = Some x ->
  exists y, f x = Ok y /\ ys !! k = Some y.
Proof.
  revert ys k; induction l as [|x' l IH]; intros ys k; simpl; [done|].
  destruct (f x') as [y|e] eqn:Hx; simpl; [|done].
  destruct (traverse f l) as [ys'|e]; simpl; [|done].
  intros [= <-]. destruct k as [|k]; simpl.
  - intros [= ->]. eauto.
  - intros Hk. by apply IH.
Qed.

Lemma traverse_ok l :
  Forall (fun x => exists y, f x = Ok y) l -> exists ys, traverse f l = Ok ys.
Proof.
  induction 1 as [|x l [y Hy] _ [ys Hys]]; simpl; [by eexists|].
  rewrite Hy, Hys. simpl. by eexists.
Qed.

Lemma traverse_raise l x e0 :
  x ∈ l -> f x = Raise e0 ->
  exists x' e, x' ∈ l /\ f x' = Raise e /\ traverse f l = Raise e.
Proof.
  induction l as [|x' l IH]; [by intros ?%elem_of_nil|].
  intros Hin Hx. simpl.
  destruct (f x') as [y|e] eqn:Hx'.
  - apply elem_of_cons in Hin as [->|Hin]; [congruence|].
    destruct (IH Hin Hx) as (x'' & e & Hin' & Hf & ->).
    exists x'', e. split; [by apply list_elem_of_further|done].
  - exists x', e. split; [by apply list_elem_of_here|done].
Qed.

Lemma traverse_raise_inv l e :
  traverse f l = Raise e -> exists x, x ∈ l /\ f x = Raise e.
Proof.
  induction l as [|x l IH]; simpl; [done|].
  destruct (f x) as [y|e'] eqn:Hx; simpl.
  - destruct (traverse f l) as [ys|e']; simpl; [done|].
    intros [= ->]. destruct IH as (x' & Hin & Hx'); [done|].
    exists x'. split; [by apply list_elem_of_further|done].
  - intros [= ->]. exists x. split; [apply list_elem_of_here|done].
Qed.

Lemma traverse_map_ok (g : B -> A) l :
  (forall y, y ∈ l -> f (g y) = Ok y) -> traverse f (map g l) = Ok l.
Proof.
  induction l as [|y l IH]; intros Hl; simpl; [done|].
  rewrite Hl by apply list_elem_of_here. simpl.
  rewrite IH; [done|]. intros y' Hy'. apply Hl. by apply list_elem_of_further.
Qed.

End Traverse.

(** ** The aggregation loop *)

Section CallFacts.

Context {V : Type}.
Implicit Types (data : FineArray V) (method : Reduction V).
Implicit Types (fv : V) (idx : list (list Z)) (progress : option Z).

Lemma getitem_ok data i :
  valid_index (length data) i -> exists x, getitem data i = Ok x.
Proof.
  unfold valid_index, getitem. cbv zeta. intros Hi.
  set (len := Z.of_nat (length data)) in *.
  set (j := if i <? 0 then i + len else i).
  assert (0 <= j < len) as Hj by (subst j; destruct (Z.ltb_spec i 0); lia).
  destruct (Z.leb_spec 0 j), (Z.ltb_spec j len); try lia. simpl.
  destruct (lookup_lt_is_Some_2 data (Z.to_nat j)) as [x ->]; [subst len; lia|].
  by eexists.
Qed.

Lemma getitem_raise data i e :
  getitem data i = Raise e ->
  e = IndexError i (length data) /\ ~ valid_index (length data) i.
Proof.
  unfold valid_index, getitem. cbv zeta.
  set (len := Z.of_nat (length data)) in *.
  set (j := if i <? 0 then i + len else i).
  destruct (Z.leb_spec 0 j), (Z.ltb_spec j len); simpl.
  - destruct (lookup_lt_is_Some_2 data (Z.to_nat j)) as [x ->]; [subst len; lia|].
    done.
  - intros [= <-]. split; [done|]. subst j. destruct (Z.ltb_spec i 0); lia.
  - intros [= <-]. split; [done|]. subst j. destruct (Z.ltb_spec i 0); lia.
  - intros [= <-]. split; [done|]. subst j. destruct (Z.ltb_spec i 0); lia.
Qed.

Lemma getitem_beyond data i :
  Z.of_nat (length data) <= i -> getitem data i = Raise (IndexError i (length data)).
Proof.
  intros Hi. destruct (getitem data i) as [x|e] eqn:Hg.
  - unfold getitem in Hg.
    destruct (Z.ltb_spec i 0); [lia|].
    destruct (Z.leb_spec 0 i), (Z.ltb_spec i (Z.of_nat (length data)));
      simpl in Hg; try lia; done.
  - by apply getitem_raise in Hg as [-> _].
Qed.

Lemma within_valid data i :
  within data i = true <-> valid_index (length data) i.
Proof.
  unfold within, valid_index.
  destruct (Z.leb_spec (- Z.of_nat (length data)) i),
    (Z.ltb_spec i (Z.of_nat (length data))); simpl; split; (done || lia).
Qed.

Lemma forallb_within data idn :
  forallb (within data) idn = true <-> Forall (valid_index (length data)) idn.
Proof.
  rewrite forallb_forall, Forall_forall. split; intros Hall i Hi.
  - apply within_valid, Hall. by apply list_elem_of_In.
  - apply within_valid, Hall. by apply list_elem_of_In.
Qed.

(** A list whose entries are all within the array is read entry by
    entry. *)
Lemma take_within data idn :
  Forall (valid_index (length data)) idn ->
  take data idn = traverse (getitem data) idn.
Proof.
  intros Hidn%forallb_within. unfold take. by rewrite Hidn.
Qed.

(** So is a list of integers of the index type. *)
Lemma take_int64 data idn :
  Forall (fun i => in_int64 i = true) idn ->
  take data idn = traverse (getitem data) idn.
Proof.
  intros Hidn. unfold take.
  assert (forallb in_int64 idn = true) as ->; [|by rewrite orb_true_r].
  apply forallb_forall. intros i Hi. rewrite Forall_forall in Hidn.
  apply Hidn. by apply list_elem_of_In.
Qed.

Lemma take_ok data idn :
  Forall (valid_index (length data)) idn -> exists g, take data idn = Ok g.
Proof.
  intros Hidn. rewrite take_within by done. apply traverse_ok.
  eapply Forall_impl; [exact Hidn|]. intros i. apply getitem_ok.
Qed.

Lemma take_raise data idn e :
  take data idn = Raise e -> is_IndexError e.
Proof.
  unfold take.
  destruct (forallb (within data) idn || forallb in_int64 idn).
  - intros (i & _ & Hi)%traverse_raise_inv.
    by apply getitem_raise in Hi as [-> _].
  - destruct (forallb in_uint64 idn).
    + intros (i & _ & Hi)%traverse_raise_inv.
      by apply getitem_raise in Hi as [-> _].
    + by intros [= <-].
Qed.

Lemma cell_value_ok data method fv idn :
  Forall (valid_index (length data)) idn ->
  exists v, cell_value data method fv idn = Ok v.
Proof.
  intros Hidn. destruct idn as [|i idn]; simpl; [by eexists|].
  destruct (take_ok data (i :: idn) Hidn) as [g Hg].
  unfold cell_value. rewrite Hg. simpl. by eexists.
Qed.

Lemma cell_value_raise data method fv idn e :
  cell_value data method fv idn = Raise e -> is_IndexError e.
Proof.
  destruct idn as [|i idn]; [done|]. unfold cell_value.
  destruct (take data (i :: idn)) as [g|e'] eqn:Hg; simpl; [done|].
  intros [= ->]. by eapply take_raise.
Qed.

(** An entry from the length of the array on, below [2^63], makes the
    gathering raise, whatever the other entries of the list are. *)
Lemma take_beyond data idn j :
  j ∈ idn -> Z.of_nat (length data) <= j < 2 ^ 63 ->
  exists e, take data idn = Raise e.
Proof.
  intros Hj [Hlen Hj63]. unfold take.
  assert (forallb (within data) idn = false) as ->.
  { apply not_true_is_false. intros Hall%forallb_within.
    rewrite Forall_forall in Hall. specialize (Hall j Hj).
    unfold valid_index in Hall. lia. }
  simpl. destruct (forallb in_int64 idn).
  - destruct (traverse_raise (getitem data) idn j _ Hj (getitem_beyond data j Hlen))
      as (j' & e & _ & _ & Hr). by exists e.
  - destruct (forallb in_uint64 idn); [|by eexists].
    assert (to_intp j = j) as Hcast.
    { unfold to_intp. destruct (Z.leb_spec (2 ^ 63) j); [lia|done]. }
    assert (j ∈ map to_intp idn) as Hj'.
    { rewrite <- Hcast. apply list_elem_of_fmap. by exists j. }
    destruct (traverse_raise (getitem data) (map to_intp idn) j _ Hj'
                (getitem_beyond data j Hlen)) as (j' & e & _ & _ & Hr).
    by exists e.
Qed.

(** The loop fills the cells from [n] on with [cell_value], and what
    it returns does not depend on [progress] or on what was printed. *)
Lemma call_loop_spec data method fv progress self_size idx :
  forall n pre out, length pre = n ->
    (call_loop data method fv progress self_size n idx
       (pre ++ replicate (length idx) fv) out).1
    = let* vs := traverse (cell_value data method fv) idx in Ok (pre ++ vs).
Proof.
  induction idx as [|idn idx IH]; intros n pre out Hn; simpl.
  - done.
  - destruct idn as [|i idn].
    + replace (pre ++ fv :: replicate (length idx) fv)
        with ((pre ++ [fv]) ++ replicate (length idx) fv) by by rewrite <- app_assoc.
      rewrite IH by (rewrite length_app; simpl; lia).
      simpl. destruct (traverse _ idx); simpl; [|done].
      by rewrite <- app_assoc.
    + change (cell_value data method fv (i :: idn))
        with (let* gathered := take data (i :: idn) in
              Ok (where_masked fv (method gathered))).
      destruct (take data (i :: idn)) as [g|e]; simpl; [|done].
      unfold setitem. rewrite length_app. simpl. rewrite length_replicate.
      destruct (Nat.ltb_spec n (length pre + S (length idx))); [|lia].
      replace (<[n := where_masked fv (method g)]> (pre ++ fv :: replicate (length idx) fv))
        with ((pre ++ [where_masked fv (method g)]) ++ replicate (length idx) fv).
      2:{ rewrite <- app_assoc. simpl. subst n.
          rewrite insert_app_r_alt by lia. by rewrite Nat.sub_diag. }
      rewrite IH by (rewrite length_app; simpl; lia).
      destruct (traverse _ idx); simpl; [|done].
      by rewrite <- app_assoc.
Qed.

Lemma call_result ls data method fv progress :
  (AggregatorMapping_call (AggregatorMapping_init ls) data method fv progress).1
  = traverse (cell_value data method fv) ls.
Proof.
  unfold AggregatorMapping_call, AggregatorMapping_init. simpl.
  rewrite map_id.
  pose proof (call_loop_spec data method fv progress (length ls) ls 0 [] [] eq_refl) as Hs.
  simpl in Hs.
  destruct (call_loop _ _ _ _ _ _ _ _ _) as [[c|e] out'];
    destruct (traverse _ ls); simpl in *; congruence.
Qed.

End CallFacts.

(** ** [int] inverts [str] *)

Module PyIntFacts.
Import PyInt.

Lemma digit_char_spec d :
  0 <= d <= 9 -> is_digit (digit_char d) = true /\ digit_val (digit_char d) = d.
Proof.
  intros Hd.
  assert (d = 0 \/ d = 1 \/ d = 2 \/ d = 3 \/ d = 4 \/ d = 5 \/ d = 6
          \/ d = 7 \/ d = 8 \/ d = 9) as Hcases by lia.
  repeat (destruct Hcases as [->|Hcases]; [by vm_compute|]).
  subst d. by vm_compute.
Qed.

Lemma digit_not_space c : is_digit c = true -> is_space c = false.
Proof. destruct c as [[] [] [] [] [] [] [] []]; by vm_compute. Qed.

Lemma digit_not_sign c :
  is_digit c = true -> Ascii.eqb c minus_char = false /\ Ascii.eqb c plus_char = false.
Proof. destruct c as [[] [] [] [] [] [] [] []]; by vm_compute. Qed.

Lemma digit_not_special c : is_digit c = true -> Csv.special c = false.
Proof. destruct c as [[] [] [] [] [] [] [] []]; by vm_compute. Qed.

Lemma digits_fuel_app fuel : forall n acc,
  digits_fuel fuel n acc = digits_fuel fuel n [] ++ acc.
Proof.
  induction fuel as [|fuel IH]; intros n acc; simpl; [done|].
  destruct (n <? 10); [done|].
  rewrite (IH _ (_ :: acc)), (IH _ [_]). by rewrite <- app_assoc.
Qed.

Lemma digits_fuel_digits fuel : forall n,
  0 <= n -> Forall (fun c => is_digit c = true) (digits_fuel fuel n []).
Proof.
  induction fuel as [|fuel IH]; intros n Hn; simpl; [constructor|].
  destruct (Z.ltb_spec n 10).
  - constructor; [|constructor]. apply digit_char_spec. lia.
  - rewrite digits_fuel_app. apply Forall_app. split.
    + apply IH. by apply Z.div_pos.
    + constructor; [|constructor]. apply digit_char_spec.
      pose proof (Z.mod_pos_bound n 10). lia.
Qed.

Lemma fold_step_snoc l c a :
  fold_left step (l ++ [c]) a = 10 * fold_left step l a + digit_val c.
Proof. by rewrite fold_left_app. Qed.

Lemma digits_fuel_value fuel : forall n,
  0 <= n < 2 ^ Z.of_nat fuel -> fold_left step (digits_fuel fuel n []) 0 = n.
Proof.
  induction fuel as [|fuel IH]; intros n Hn; simpl digits_fuel.
  - simpl in *. lia.
  - destruct (Z.ltb_spec n 10).
    + simpl. unfold step. destruct (digit_char_spec n) as [_ ->]; lia.
    + rewrite digits_fuel_app, fold_step_snoc.
      rewrite Nat2Z.inj_succ, Z.pow_succ_r in Hn by lia.
      rewrite IH.
      * destruct (digit_char_spec (n mod 10)) as [_ ->].
        { pose proof (Z.mod_pos_bound n 10). lia. }
        pose proof (Z.div_mod n 10). lia.
      * split; [apply Z.div_pos; lia|].
        apply Z.div_lt_upper_bound; lia.
Qed.

Lemma digits_value n : 0 <= n -> fold_left step (digits n) 0 = n.
Proof.
  intros Hn. unfold digits. apply digits_fuel_value. split; [done|].
  rewrite Nat2Z.inj_succ, Z2Nat.id by apply Z.log2_nonneg.
  destruct (Z.eq_dec n 0) as [->|]; [done|].
  apply Z.log2_spec. lia.
Qed.

Lemma digits_digits n : 0 <= n -> Forall (fun c => is_digit c = true) (digits n).
Proof. apply digits_fuel_digits. Qed.

Lemma digits_nonempty n : digits n <> [].
Proof.
  unfold digits. simpl. destruct (n <? 10); [done|].
  rewrite digits_fuel_app. by intros [? ?]%app_eq_nil.
Qed.

Lemma int_digits_digits l : forall a,
  Forall (fun c => is_digit c = true) l -> int_digits a l = Some (fold_left step l a).
Proof.
  induction l as [|c l IH]; intros a Hl; [done|].
  apply Forall_cons in Hl as [Hc Hl]. simpl. rewrite Hc. by apply IH.
Qed.

Lemma int_unsigned_digits n : 0 <= n -> int_unsigned (digits n) = Some n.
Proof.
  intros Hn. pose proof (digits_digits n Hn) as Hd.
  pose proof (digits_value n Hn) as Hv.
  destruct (digits n) as [|d l] eqn:E; [by apply digits_nonempty in E|].
  apply Forall_cons in Hd as [Hd Hl]. simpl. rewrite Hd.
  rewrite int_digits_digits by done. simpl in Hv. unfold step in Hv at 2.
  by rewrite Z.mul_0_r, Z.add_0_l in Hv; rewrite Hv.
Qed.

Lemma lstrip_id s :
  Forall (fun c => is_space c = false) s -> lstrip s = s.
Proof. destruct 1 as [|c s Hc _]; simpl; [done|by rewrite Hc]. Qed.

Lemma strip_id s :
  Forall (fun c => is_space c = false) s -> strip s = s.
Proof.
  intros Hs. unfold strip. rewrite (lstrip_id s Hs).
  rewrite lstrip_id; [apply rev_involutive|].
  rewrite Forall_forall in Hs. apply Forall_forall. intros c Hc.
  apply Hs. apply list_elem_of_In, in_rev. by apply list_elem_of_In.
Qed.

(** The characters of [str z]: digits, after a minus sign for a
    negative [z]. *)
Lemma str_chars z :
  Forall (fun c => is_digit c = true \/ c = minus_char) (str z).
Proof.
  unfold str. destruct (Z.ltb_spec z 0).
  - constructor; [by right|].
    eapply Forall_impl; [apply digits_digits; lia|]. by left.
  - eapply Forall_impl; [by apply digits_digits|]. by left.
Qed.

Lemma str_nonempty z : str z <> [].
Proof. unfold str. destruct (z <? 0); [done|apply digits_nonempty]. Qed.

Lemma str_plain z : Csv.needs_quote (str z) = false.
Proof.
  unfold Csv.needs_quote. apply not_true_is_false. intros Hex.
  apply existsb_exists in Hex as (c & Hin & Hc).
  pose proof (str_chars z) as Hs. rewrite Forall_forall in Hs.
  destruct (Hs c) as [Hd| ->].
  - by apply list_elem_of_In.
  - apply digit_not_special in Hd. congruence.
  - by vm_compute in Hc.
Qed.

Lemma int_literal_str z : int_literal (str z) = Some z.
Proof.
  unfold int_literal. rewrite strip_id.
  2:{ eapply Forall_impl; [apply str_chars|]. intros c [Hd| ->].
      - by apply digit_not_space.
      - by vm_compute. }
  unfold str. destruct (Z.ltb_spec z 0).
  - change (Ascii.eqb minus_char minus_char) with true. cbv iota.
    rewrite int_unsigned_digits by lia. simpl. f_equal. lia.
  - pose proof (digits_digits z H) as Hd.
    pose proof (int_unsigned_digits z H) as Hv.
    destruct (digits z) as [|d l] eqn:E; [by apply digits_nonempty in E|].
    apply Forall_cons in Hd as [Hd _].
    destruct (digit_not_sign d Hd) as [-> ->]. done.
Qed.

Lemma int_str z : int (str z) = Ok z.
Proof. unfold int. by rewrite int_literal_str. Qed.

End PyIntFacts.

(** ** Reading back what the writer wrote *)

Module CsvFacts.
Import Csv.

Lemma special_false c :
  special c = false ->
  Ascii.eqb c delimiter = false /\ Ascii.eqb c quotechar = false
  /\ is_newline c = false /\ Ascii.eqb c TextIO.LF = false
  /\ Ascii.eqb c TextIO.CR = false.
Proof.
  unfold special, is_newline.
  destruct (Ascii.eqb c delimiter), (Ascii.eqb c quotechar),
    (Ascii.eqb c TextIO.CR), (Ascii.eqb c TextIO.LF); simpl; intros; try done.
Qed.

Lemma render_plain f : plain f -> render_field f = f.
Proof.
  intros [_ Hf]. unfold render_field, needs_quote.
  destruct (existsb special f) eqn:E; [|done].
  apply existsb_exists in E as (c & Hin & Hc).
  rewrite Forall_forall in Hf. apply list_elem_of_In, Hf in Hin. congruence.
Qed.

Lemma join_fields_plain fs : Forall plain fs -> join_fields fs = joined fs.
Proof.
  induction 1 as [|f fs Hf Hfs IH]; simpl; [done|].
  rewrite (render_plain f Hf), IH. done.
Qed.

Lemma writerow_plain fs :
  Forall plain fs -> writerow fs = joined fs ++ lineterminator.
Proof.
  intros Hfs. unfold writerow. rewrite (join_fields_plain fs Hfs).
  destruct fs as [|f fs]; [done|].
  apply Forall_cons in Hfs as [[Hf _] _]. by destruct f.
Qed.

Lemma joined_no_newline fs :
  Forall plain fs ->
  Forall (fun c => Ascii.eqb c TextIO.LF = false /\ Ascii.eqb c TextIO.CR = false)
    (joined fs).
Proof.
  induction 1 as [|f fs [_ Hf] Hfs IH]; simpl; [constructor|].
  assert (Forall (fun c => Ascii.eqb c TextIO.LF = false
                           /\ Ascii.eqb c TextIO.CR = false) f) as Hf'.
  { eapply Forall_impl; [exact Hf|]. intros c Hc.
    apply special_false in Hc. tauto. }
  destruct fs; [done|].
  apply Forall_app. split; [done|]. constructor; [by vm_compute|done].
Qed.

(** A line without line ends, then CR LF: one line of the file. *)
Lemma iter_lines_crlf body rest :
  Forall (fun c => Ascii.eqb c TextIO.LF = false /\ Ascii.eqb c TextIO.CR = false) body ->
  TextIO.iter_lines (body ++ lineterminator ++ rest)
  = (body ++ [TextIO.LF]) :: TextIO.iter_lines rest.
Proof.
  induction 1 as [|c body [Hlf Hcr] _ IH]; [done|].
  simpl app. simpl TextIO.iter_lines. rewrite Hlf, Hcr.
  simpl app in IH. by rewrite IH.
Qed.

Lemma iter_lines_rows rows :
  Forall (Forall plain) rows ->
  TextIO.iter_lines (writerows rows)
  = map (fun fs => joined fs ++ [TextIO.LF]) rows.
Proof.
  induction 1 as [|fs rows Hfs _ IH]; [done|].
  unfold writerows. simpl. rewrite (writerow_plain fs Hfs).
  rewrite <- app_assoc, iter_lines_crlf by by apply joined_no_newline.
  f_equal. exact IH.
Qed.

(** The parser inside an unquoted field. *)
Lemma process_chars_in_field f : forall r,
  state r = IN_FIELD -> Forall (fun c => special c = false) f ->
  process_chars r f
  = Ok {| state := IN_FIELD; field := field r ++ f; fields := fields r |}.
Proof.
  induction f as [|c f IH]; intros r Hst Hf.
  - simpl. rewrite app_nil_r. destruct r; simpl in *; by subst.
  - apply Forall_cons in Hf as [Hc Hf].
    apply special_false in Hc as (Hd & Hq & Hn & _).
    simpl. unfold parse_process_char. rewrite Hst, Hn, Hd. simpl.
    rewrite IH by done. simpl. by rewrite <- app_assoc.
Qed.

Lemma process_chars_app l1 l2 r :
  process_chars r (l1 ++ l2)
  = let* r' := process_chars r l1 in process_chars r' l2.
Proof.
  revert r; induction l1 as [|c l1 IH]; intros r; simpl; [done|].
  destruct (parse_process_char r (Some c)); simpl; [apply IH|done].
Qed.

(** The parser at the start of a plain field. *)
Lemma process_chars_field f r :
  state r = START_RECORD \/ state r = START_FIELD -> field r = [] -> plain f ->
  process_chars r f
  = Ok {| state := IN_FIELD; field := f; fields := fields r |}.
Proof.
  intros Hst Hfield [Hne Hf]. destruct f as [|c f]; [done|].
  apply Forall_cons in Hf as [Hc Hf].
  apply special_false in Hc as (Hd & Hq & Hn & _).
  simpl. unfold parse_process_char, start_field.
  destruct Hst as [-> | ->]; rewrite Hn; simpl; rewrite ?Hn, Hq, Hd; simpl;
    rewrite process_chars_in_field by done; simpl; by rewrite Hfield.
Qed.

(** A row of plain fields and its line end leave the parser after the
    line, with the fields saved. *)
Lemma process_chars_row fs : forall r,
  fs <> [] -> Forall plain fs ->
  state r = START_RECORD \/ state r = START_FIELD -> field r = [] ->
  process_chars r (joined fs ++ [TextIO.LF])
  = Ok {| state := EAT_CRNL; field := []; fields := fields r ++ fs |}.
Proof.
  induction fs as [|f fs IH]; intros r Hne Hfs Hst Hfield; [done|].
  apply Forall_cons in Hfs as [Hf Hfs]. simpl joined.
  destruct fs as [|g fs].
  - rewrite process_chars_app, (process_chars_field f r) by done. simpl.
    done.
  - rewrite <- app_assoc, process_chars_app, (process_chars_field f r) by done.
    rewrite <- app_comm_cons.
    remember (joined (g :: fs) ++ [TextIO.LF]) as line eqn:Hline.
    simpl. subst line.
    rewrite IH; simpl; try done; [|by right].
    by rewrite <- app_assoc.
Qed.

Lemma process_line_row fs :
  Forall plain fs ->
  process_line parse_reset (joined fs ++ [TextIO.LF])
  = Ok {| state := START_RECORD; field := []; fields := fs |}.
Proof.
  intros Hfs. unfold process_line. destruct fs as [|f fs]; [done|].
  rewrite process_chars_row; simpl; try done. by left.
Qed.

Lemma reader_rows rows :
  Forall (Forall plain) rows ->
  reader_records (map (fun fs => joined fs ++ [TextIO.LF]) rows) = (rows, None).
Proof.
  unfold reader_records.
  induction 1 as [|fs rows Hfs _ IH]; [done|].
  simpl. rewrite (process_line_row fs Hfs). simpl. by rewrite IH.
Qed.

Lemma str_is_plain z : plain (PyInt.str z).
Proof.
  split; [apply PyIntFacts.str_nonempty|].
  pose proof (PyIntFacts.str_plain z) as Hq. unfold needs_quote in Hq.
  apply Forall_forall. intros c Hc.
  destruct (special c) eqn:E; [|done].
  assert (existsb special (PyInt.str z) = true); [|congruence].
  apply existsb_exists. exists c. split; [by apply list_elem_of_In|done].
Qed.

End CsvFacts.

Lemma write_posix s : TextIO.write TextIO.posix_linesep s = s.
Proof.
  unfold TextIO.write. induction s as [|c s IH]; simpl; [done|].
  rewrite IH. destruct (Ascii.eqb_spec c TextIO.LF) as [->|]; done.
Qed.

(** Loading what [save_csv_gz] wrote gives the mapping back. *)
Lemma load_save ls :
  load_csv_gz (save_csv_gz TextIO.posix_linesep (AggregatorMapping_init ls))
  = Ok (AggregatorMapping_init ls).
Proof.
  unfold load_csv_gz, save_csv_gz. rewrite write_posix. simpl indices. rewrite map_id.
  assert (Forall (Forall plain) (map (map PyInt.str) ls)) as Hplain.
  { apply Forall_forall. intros row (idn & -> & _)%list_elem_of_fmap.
    apply Forall_forall. intros f (z & -> & _)%list_elem_of_fmap.
    apply CsvFacts.str_is_plain. }
  rewrite (CsvFacts.iter_lines_rows _ Hplain), (CsvFacts.reader_rows _ Hplain).
  rewrite (traverse_map_ok (traverse PyInt.int) (map PyInt.str)).
  - done.
  - intros idn _. apply traverse_map_ok. intros z _. apply PyIntFacts.int_str.
Qed.

(** ** The containment loop *)

Lemma where_from_bounds mask : forall i,
  Forall (fun e => Z.of_nat i <= e < Z.of_nat (i + length mask)) (where_from i mask).
Proof.
  induction mask as [|b mask IH]; intros i; simpl; [constructor|].
  assert (Forall (fun e => Z.of_nat i <= e < Z.of_nat (i + S (length mask)))
            (where_from (S i) mask)) as Hrest.
  { eapply Forall_impl; [apply IH|]. simpl. intros e. lia. }
  destruct b; [constructor; [lia|done]|done].
Qed.

Lemma where_from_sorted mask : forall i, StronglySorted Z.lt (where_from i mask).
Proof.
  induction mask as [|b mask IH]; intros i; simpl; [constructor|].
  destruct b; [|apply IH].
  constructor; [apply IH|].
  eapply Forall_impl; [apply where_from_bounds|]. simpl. intros e. lia.
Qed.

Lemma strictly_increasing_NoDup (l : list Z) : StronglySorted Z.lt l -> NoDup l.
Proof.
  induction 1 as [|x l _ IH Hx]; constructor; [|done].
  intros Hin. rewrite Forall_forall in Hx. specialize (Hx x Hin). lia.
Qed.

Section BuilderFacts.

Context {Path : Type} `{PathOps Path}.
Implicit Types (paths : list Path) (points : list Point) (progress : option Z).

Lemma build_step_spec points progress self_size i path st pre rest :
  length pre = i -> idx st = pre ++ [] :: rest ->
  idx (build_step points progress self_size i path st)
  = pre ++ cell_indices points path :: rest
  /\ scanned (build_step points progress self_size i path st)
     = scanned st ++ scanned_from i [path].
Proof.
  intros Hi Hidx. unfold build_step, cell_indices. simpl scanned_from.
  assert (forall inside : list Z,
    (if (0 <? length inside)%nat
     then alter (fun idn => idn ++ inside) i (pre ++ [] :: rest)
     else pre ++ [] :: rest) = pre ++ inside :: rest) as Hext.
  { intros inside. destruct inside as [|e inside]; simpl; [done|].
    subst i. rewrite alter_app_r_alt by lia. by rewrite Nat.sub_diag. }
  destruct (truthy progress), (Bbox.any _); simpl; rewrite ?Hidx, ?app_nil_r;
    try done.
  - specialize (Hext (np_where (contains_points path points))).
    destruct (0 <? length _)%nat; simpl; by rewrite <- Hext, ?Hidx.
  - specialize (Hext (np_where (contains_points path points))).
    destruct (0 <? length _)%nat; simpl; by rewrite <- Hext, ?Hidx.
Qed.

Lemma build_loop_spec points progress self_size paths :
  forall i st pre, length pre = i ->
    idx st = pre ++ replicate (length paths) [] ->
    let st' := build_loop points progress self_size i paths st in
    idx st' = pre ++ map (cell_indices points) paths
    /\ scanned st' = scanned st ++ scanned_from i paths.
Proof.
  induction paths as [|path paths IH]; intros i st pre Hi Hidx; simpl.
  - simpl in Hidx. rewrite !app_nil_r in *. done.
  - simpl in Hidx.
    destruct (build_step_spec points progress self_size i path st pre _ Hi Hidx)
      as [Hidx' Hsc].
    destruct (IH (S i) (build_step points progress self_size i path st)
                (pre ++ [cell_indices points path])) as [Hidx'' Hsc''].
    + rewrite length_app. simpl. lia.
    + by rewrite <- app_assoc.
    + rewrite Hidx'', Hsc'', Hsc, <- !app_assoc. simpl.
      destruct (Bbox.any _); done.
Qed.

Lemma build_spec paths points progress :
  idx (build paths points progress) = map (cell_indices points) paths
  /\ scanned (build paths points progress) = scanned_from 0 paths.
Proof.
  unfold build.
  by destruct (build_loop_spec points progress (length paths) paths 0
                 {| idx := replicate (length paths) []; counter := 0;
                    out := []; scanned := [] |} [] eq_refl eq_refl).
Qed.

(** The mapping the builder leaves is the one [AggregatorMapping]
    makes of its index lists. *)
Lemma builder_mapping paths points progress :
  mapping (Aggregator_init paths points progress).1
  = AggregatorMapping_init (map (cell_indices points) paths).
Proof.
  unfold Aggregator_init, AggregatorMapping_init. simpl.
  destruct (build_spec paths points progress) as [-> _].
  by rewrite map_id, !length_map.
Qed.

Lemma scanned_from_ge paths : forall i k, k ∈ scanned_from i paths -> (i <= k)%nat.
Proof.
  induction paths as [|path paths IH]; intros i k; simpl.
  - by intros ?%elem_of_nil.
  - destruct (Bbox.any _).
    + intros [->|Hk%IH]%elem_of_cons; lia.
    + intros Hk%IH. lia.
Qed.

Lemma scanned_from_lookup paths : forall i k path,
  paths !! k = Some path ->
  ((i + k)%nat ∈ scanned_from i paths
   <-> Bbox.any (Bbox.size (get_extents path)) = true).
Proof.
  induction paths as [|p paths IH]; intros i k path; [done|].
  destruct k as [|k]; simpl.
  - intros [= ->]. rewrite Nat.add_0_r. destruct (Bbox.any _).
    + split; [done|]. intros _. apply list_elem_of_here.
    + split; [|done]. intros Hin%scanned_from_ge. lia.
  - intros Hk. rewrite <- (IH (S i) k path Hk).
    replace (i + S k)%nat with (S i + k)%nat by lia.
    destruct (Bbox.any _); [|done].
    rewrite elem_of_cons. split; [intros [?|?]; [lia|done]|by right].
Qed.

(** A path with some extent is handed to [contains_points], and its
    list is what [numpy.where] makes of the answer. *)
Lemma extent_scanned paths points progress k path :
  paths !! k = Some path ->
  Bbox.any (Bbox.size (get_extents path)) = true ->
  idx (build paths points progress) !! k
  = Some (np_where (contains_points path points))
  /\ k ∈ scanned (build paths points progress).
Proof.
  intros Hk Hany. destruct (build_spec paths points progress) as [-> ->].
  split.
  - rewrite list_lookup_fmap, Hk. simpl. unfold cell_indices. by rewrite Hany.
  - by apply (scanned_from_lookup paths 0 k path Hk).
Qed.

End BuilderFacts.

(** ** Shared objects *)

Module StoreFacts.
Import Store.

Lemma mapM_agree {A B} (f g : A -> option B) l : forall k,
  (forall x y, x ∈ l -> f x = Some y -> g x = Some y) ->
  mapM f l = Some k -> mapM g l = Some k.
Proof.
  induction l as [|x l IH]; intros k Hfg; simpl; [done|].
  destruct (f x) as [y|] eqn:Hx; simpl; [|done].
  destruct (mapM f l) as [k'|] eqn:Hl; simpl; [|done].
  intros [= <-].
  assert (g x = Some y) as -> by (apply Hfg; [apply list_elem_of_here|done]).
  simpl.
  assert (mapM g l = Some k') as ->; [|done].
  apply IH; [|done]. intros x' y' Hin. apply Hfg. by apply list_elem_of_further.
Qed.

Lemma as_int_ref elems k l :
  mapM as_int elems = Some k -> VRef l ∈ elems -> False.
Proof.
  revert k; induction elems as [|v elems IH]; intros k; simpl.
  - by intros _ ?%elem_of_nil.
  - destruct (as_int v) as [z|] eqn:Hv; simpl; [|done].
    destruct (mapM as_int elems) as [k'|]; simpl; [|done].
    intros _ [<-|Hin]%elem_of_cons; [done|]. by eapply IH.
Qed.

Lemma init_fresh h arg h' self :
  init h arg = Some (h', self) ->
  exists elems, h !! arg = Some elems /\ self_indices self <> arg
    /\ h !! self_indices self = None
    /\ h' = <[self_indices self := elems]> h /\ self_size self = length elems.
Proof.
  unfold init. destruct (h !! arg) as [elems|] eqn:Harg; [|done].
  intros [= <- <-]. simpl. exists elems.
  assert (h !! fresh (dom h) = None) as Hfresh.
  { apply not_elem_of_dom. apply is_fresh. }
  rewrite map_id, ?length_map. repeat split; try done. congruence.
Qed.

End StoreFacts.

(** ** The default reduction and the mask *)

Module MedianFacts.
Import Median.

Lemma insert_sorted_length x l : length (insert_sorted x l) = S (length l).
Proof.
  induction l as [|y l IH]; simpl; [done|].
  destruct (Qle_bool x y); simpl; by rewrite ?IH.
Qed.

Lemma sort_length l : length (sort l) = length l.
Proof.
  induction l as [|x l IH]; simpl; [done|].
  by rewrite insert_sorted_length, IH.
Qed.

Lemma compressed_nil a : compressed a = [] <-> Forall (fun x => x = None) a.
Proof.
  induction a as [|[x|] a IH]; simpl.
  - split; [constructor|done].
  - split; [done|]. by intros [? _]%Forall_cons.
  - rewrite IH. split; [by constructor|]. by intros [_ ?]%Forall_cons.
Qed.

(** The median is masked exactly when every entry is. *)
Lemma median_masked a : median a = None <-> Forall (fun x => x = None) a.
Proof.
  rewrite <- compressed_nil. unfold median.
  pose proof (sort_length (compressed a)) as Hlen.
  destruct (compressed a) as [|x c] eqn:E.
  - done.
  - set (s := sort (x :: c)) in *. simpl in Hlen.
    split; [|done]. rewrite Hlen. simpl Nat.eqb. cbv iota.
    assert (S (length c) / 2 < length s)%nat as Hhalf.
    { rewrite Hlen. apply Nat.div_lt; lia. }
    destruct (lookup_lt_is_Some_2 s _ Hhalf) as [b Hb].
    destruct (Nat.odd (S (length c))); [by rewrite Hb|].
    assert (S (length c) / 2 - 1 < length s)%nat as Hprev by lia.
    destruct (lookup_lt_is_Some_2 s _ Hprev) as [b' Hb'].
    by rewrite Hb, Hb'.
Qed.

End MedianFacts.

(** ** Progress does not change results *)

Lemma call_loop_progress {V} (data : FineArray V) method fv progress self_size idx :
  forall n coarseData out out',
    (call_loop data method fv progress self_size n idx coarseData out).1
    = (call_loop data method fv None self_size n idx coarseData out').1.
Proof.
  induction idx as [|idn idx IH]; intros n coarseData out out'; simpl; [done|].
  destruct idn as [|i idn]; [apply IH|].
  destruct (rbind _ _) as [c|e]; [apply IH|done].
Qed.

Lemma call_progress {V} (self : AggregatorMapping) (data : FineArray V) method fv progress :
  (AggregatorMapping_call self data method fv progress).1
  = (AggregatorMapping_call self data method fv None).1.
Proof.
  unfold AggregatorMapping_call.
  pose proof (call_loop_progress data method fv progress (size self) (indices self)
                0 (replicate (size self) fv) [] []) as Hp.
  destruct (call_loop data method fv progress _ _ _ _ _) as [[c|e] out1],
    (call_loop data method fv None _ _ _ _ _) as [[c'|e'] out2]; simpl in *; congruence.
Qed.

(** ** The scenarios of the specification *)

Example scenario_mapping :
  let cell0 := Polygon.mk (0, 0)%Q [(1, 0); (1, 1); (0, 1)]%Q in
  let cell1 := Polygon.mk (1, 0)%Q [(2, 0); (2, 1); (1, 1)]%Q in
  let points := [(1 # 2, 1 # 2); (3 # 2, 1 # 2); (9 # 10, 9 # 10)]%Q in
  indices (mapping (Aggregator_init [cell0; cell1] points None).1) = [[0; 2]; [1]].
Proof. reflexivity. Qed.

Example scenario_aggregate :
  exists coarse,
    (AggregatorMapping_call (AggregatorMapping_init [[0; 2]; [1]])
       [Some 10; Some 20; Some 30]%Q Median.median (-999)%Q None).1 = Ok coarse
    /\ Forall2 Qeq coarse [20; 20]%Q.
Proof. eexists. split; [reflexivity|]. repeat constructor. Qed.

Example scenario_empty_cell :
  let cell0 := Polygon.mk (0, 0)%Q [(1, 0); (1, 1); (0, 1)]%Q in
  let cell1 := Polygon.mk (1, 0)%Q [(2, 0); (2, 1); (1, 1)]%Q in
  let M := mapping (Aggregator_init [cell0; cell1] [(1 # 2, 1 # 2)%Q] None).1 in
  indices M = [[0]; []]
  /\ (AggregatorMapping_call M [Some 5]%Q Median.median (-1)%Q None).1
     = Ok [5; -1]%Q.
Proof. split; reflexivity. Qed.

(** Where the line separator is CR LF, the file has CR CR LF after each
    row, and the reader finds an empty row after each one written. *)
Example windows_linesep_adds_rows :
  load_csv_gz (save_csv_gz TextIO.windows_linesep (AggregatorMapping_init [[1; 2]]))
  = Ok (AggregatorMapping_init [[1; 2]; []]).
Proof. reflexivity. Qed.

(** * The claims *)

(** C1, as the code has it: a polygon whose bounding box has zero width
    and zero height gets an empty index list whatever the points are,
    and [contains_points] is not called on it. *)
Theorem point_extent_skipped {Path : Type} `{PathOps Path} (paths : list Path)
    (points : list Point) (progress : option Z) (k : nat) (path : Path) :
  paths !! k = Some path ->
  (width path == 0)%Q -> (height path == 0)%Q ->
  indices (mapping (Aggregator_init paths points progress).1) !! k = Some []
  /\ k ∉ scanned (build paths points progress).
Proof.
  intros Hk Hw Hh.
  assert (Bbox.any (Bbox.size (get_extents path)) = false) as Hany.
  { unfold Bbox.any. fold (width path) (height path).
    apply Qeq_bool_iff in Hw, Hh. by rewrite Hw, Hh. }
  destruct (build_spec paths points progress) as [Hidx Hsc].
  split.
  - simpl. rewrite Hidx, list_lookup_fmap, Hk. simpl.
    unfold cell_indices. by rewrite Hany.
  - rewrite Hsc. intros Hin.
    apply (scanned_from_lookup paths 0 k path Hk) in Hin. congruence.
Qed.

Lemma point_extent_skipped_witness :
  let path := Polygon.mk (0, 0)%Q [(0, 0)%Q] in
  let points := [(0, 0)%Q; (1, 1)%Q] in
  [path] !! 0%nat = Some path
  /\ (width path == 0)%Q /\ (height path == 0)%Q
  /\ indices (mapping (Aggregator_init [path] points (Some 1)).1) !! 0%nat = Some []
  /\ 0%nat ∉ scanned (build [path] points (Some 1)).
Proof.
  intros path points.
  assert ([path] !! 0%nat = Some path) as Hk by reflexivity.
  assert (width path == 0)%Q as Hw by reflexivity.
  assert (height path == 0)%Q as Hh by reflexivity.
  exact (conj Hk (conj Hw (conj Hh
    (point_extent_skipped [path] points (Some 1) 0 path Hk Hw Hh)))).
Defined.

(** C1 fails as stated: a polygon of zero width and non-zero height is
    handed to the containment test, and a point on it that the test
    takes as inside is listed. The path has the three vertices (0,0),
    (0,1), (0,2); the point is (0,1/2). *)
Lemma zero_width_polygon_scanned :
  let path := Polygon.mk (0, 0)%Q [(0, 1)%Q; (0, 2)%Q] in
  let points := [(0, 1 # 2)%Q] in
  (width path == 0)%Q
  /\ indices (mapping (Aggregator_init [path] points None).1) !! 0%nat = Some [0]
  /\ scanned (build [path] points None) = [0%nat].
Proof. by vm_compute. Qed.



(** C3: where the index list at position [k] is empty, the array
    [__call__] returns has the fill value at [k], for every reduction,
    fine array and fill value; and it returns an array whenever every
    index is accepted by the fine array. *)
Theorem empty_cell_filled {V : Type} (ls : list (list Z)) (data : FineArray V)
    (method : Reduction V) (fv : V) (progress : option Z) (k : nat) :
  ls !! k = Some [] ->
  (forall coarse,
     (AggregatorMapping_call (AggregatorMapping_init ls) data method fv progress).1
     = Ok coarse -> coarse !! k = Some fv)
  /\ (in_range data ls ->
      exists coarse,
        (AggregatorMapping_call (AggregatorMapping_init ls) data method fv progress).1
        = Ok coarse).
Proof.
  intros Hk. rewrite call_result. split.
  - intros coarse Hc.
    by destruct (traverse_lookup _ ls coarse k [] Hc Hk) as (v & [= <-] & ?).
  - intros Hr. apply traverse_ok.
    eapply Forall_impl; [exact Hr|]. intros idn. apply cell_value_ok.
Qed.

Lemma empty_cell_filled_witness :
  let ls := [[0; 2]; []; [1]] in
  let data := [Some 10; None; Some 30]%Q in
  ls !! 1%nat = Some []
  /\ in_range data ls
  /\ exists coarse,
       (AggregatorMapping_call (AggregatorMapping_init ls) data Median.median
          (-999)%Q (Some 1)).1 = Ok coarse
       /\ coarse !! 1%nat = Some (-999)%Q.
Proof.
  intros ls data.
  assert (ls !! 1%nat = Some []) as Hk by reflexivity.
  assert (in_range data ls) as Hr.
  { unfold in_range, valid_index. repeat constructor; simpl; lia. }
  destruct (empty_cell_filled ls data Median.median (-999)%Q (Some 1) 1 Hk)
    as [Hfill Hret].
  destruct (Hret Hr) as [coarse Hc].
  refine (conj Hk (conj Hr _)).
  exists coarse. split; [exact Hc|]. by apply Hfill.
Defined.

(** C4: for a reduction that is masked on the gathered entries exactly
    when all of them are masked (as the default, the median, is),
    [__call__] returns the fill value at [k] when every entry gathered
    for cell [k] is masked, and the reduced value otherwise. *)
Theorem all_masked_filled {V : Type} (ls : list (list Z)) (data : FineArray V)
    (method : Reduction V) (fv : V) (progress : option Z) (k : nat)
    (idn : list Z) (gathered : FineArray V) :
  ls !! k = Some idn ->
  take data idn = Ok gathered ->
  (method gathered = None <-> Forall (fun x => x = None) gathered) ->
  in_range data ls ->
  exists coarse,
    (AggregatorMapping_call (AggregatorMapping_init ls) data method fv progress).1
    = Ok coarse
    /\ (Forall (fun x => x = None) gathered -> coarse !! k = Some fv)
    /\ (~ Forall (fun x => x = None) gathered ->
        exists v, method gathered = Some v /\ coarse !! k = Some v).
Proof.
  intros Hk Hg Hm Hr. rewrite call_result.
  destruct (traverse_ok (cell_value data method fv) ls) as [coarse Hc].
  { eapply Forall_impl; [exact Hr|]. intros idn'. apply cell_value_ok. }
  exists coarse. split; [done|].
  destruct (traverse_lookup _ ls coarse k idn Hc Hk) as (v & Hv & Hkv).
  assert (idn <> [] -> v = where_masked fv (method gathered)) as Hne.
  { intros Hidn. destruct idn as [|i idn]; [done|].
    unfold cell_value in Hv. rewrite Hg in Hv. simpl in Hv. congruence. }
  split.
  - intros Hall. destruct idn as [|i idn].
    + simpl in Hv. congruence.
    + rewrite Hne in Hkv by done. apply Hm in Hall. by rewrite Hall in Hkv.
  - intros Hsome. destruct idn as [|i idn].
    + simpl in Hg. injection Hg as <-. by destruct Hsome.
    + destruct (method gathered) as [w|] eqn:Hw.
      * exists w. split; [done|]. by rewrite Hne in Hkv.
      * destruct Hsome. by apply Hm.
Qed.

Lemma all_masked_filled_witness :
  let ls := [[0; 2]; [1; 3]] in
  let data := [None; Some 4; None; Some 8]%Q in
  ls !! 0%nat = Some [0; 2]
  /\ take data [0; 2] = Ok [None; None]
  /\ (Median.median [None; None] = None
      <-> Forall (fun x : option Q => x = None) [None; None])
  /\ in_range data ls
  /\ exists coarse,
       (AggregatorMapping_call (AggregatorMapping_init ls) data Median.median
          (-1)%Q None).1 = Ok coarse
       /\ coarse !! 0%nat = Some (-1)%Q.
Proof.
  intros ls data.
  assert (ls !! 0%nat = Some [0; 2]) as Hk by reflexivity.
  assert (take data [0; 2] = Ok [None; None]) as Hg by reflexivity.
  assert (Median.median [None; None] = None
          <-> Forall (fun x : option Q => x = None) [None; None]) as Hm.
  { split; [intros _; repeat constructor|reflexivity]. }
  assert (in_range data ls) as Hr.
  { unfold in_range, valid_index. repeat constructor; simpl; lia. }
  destruct (all_masked_filled ls data Median.median (-1)%Q None 0 [0; 2]
              [None; None] Hk Hg Hm Hr) as (coarse & Hc & Hall & _).
  refine (conj Hk (conj Hg (conj Hm (conj Hr _)))).
  exists coarse. split; [exact Hc|]. apply Hall. repeat constructor.
Defined.

(** C5, as the code has it: an index list entry from the length of the
    fine array on and below [2^63] makes [__call__] raise an
    [IndexError] of numpy; the constructor takes such lists as they
    are, and saving and loading the mapping succeeds. *)
Theorem index_beyond_raises {V : Type} (ls : list (list Z)) (data : FineArray V)
    (method : Reduction V) (fv : V) (progress : option Z) (idn : list Z) (j : Z) :
  idn ∈ ls -> j ∈ idn -> Z.of_nat (length data) <= j -> j < 2 ^ 63 ->
  let M := AggregatorMapping_init ls in
  indices M = ls
  /\ load_csv_gz (save_csv_gz TextIO.posix_linesep M) = Ok M
  /\ exists e,
       (AggregatorMapping_call M data method fv progress).1 = Raise e
       /\ is_IndexError e.
Proof.
  intros Hidn Hj Hlen Hj63 M. subst M. split; [|split].
  - simpl. apply map_id.
  - apply load_save.
  - rewrite call_result.
    destruct (take_beyond data idn j Hj (conj Hlen Hj63)) as [e Htake].
    assert (cell_value data method fv idn = Raise e) as Hcell.
    { destruct idn as [|i idn]; [by apply elem_of_nil in Hj|].
      unfold cell_value. by rewrite Htake. }
    destruct (traverse_raise (cell_value data method fv) ls idn e Hidn Hcell)
      as (idn' & e' & _ & Hcell' & ->).
    exists e'. split; [done|]. by eapply cell_value_raise.
Qed.

Lemma index_beyond_raises_witness :
  let ls := [[0]; [1; 3]] in
  let data := [Some 10; Some 20; Some 30]%Q in
  [1; 3] ∈ ls /\ 3 ∈ [1; 3] /\ Z.of_nat (length data) <= 3 /\ 3 < 2 ^ 63
  /\ indices (AggregatorMapping_init ls) = ls
  /\ load_csv_gz (save_csv_gz TextIO.posix_linesep (AggregatorMapping_init ls))
     = Ok (AggregatorMapping_init ls)
  /\ exists e,
       (AggregatorMapping_call (AggregatorMapping_init ls) data Median.median
          (-1)%Q None).1 = Raise e
       /\ is_IndexError e.
Proof.
  intros ls data.
  assert ([1; 3] ∈ ls) as Hidn by (apply elem_of_cons; right; apply elem_of_cons; by left).
  assert (3 ∈ [1; 3]) as Hj by (apply elem_of_cons; right; apply elem_of_cons; by left).
  assert (Z.of_nat (length data) <= 3) as Hlen by (simpl; lia).
  assert (3 < 2 ^ 63) as Hj63 by reflexivity.
  exact (conj Hidn (conj Hj (conj Hlen (conj Hj63
    (index_beyond_raises ls data Median.median (-1)%Q None [1; 3] 3
       Hidn Hj Hlen Hj63))))).
Defined.

(** C5 fails as stated: the entry [2^64 - 1] is beyond the length of
    the fine array, and [__call__] raises nothing: numpy casts the
    entry to its index type, where it is [-1], and the cell holds the
    reduction of the last entry of the fine array. *)
Lemma index_wraps_at_uint64 :
  let ls := [[18446744073709551615]] in
  let data := [Some 10; Some 20; Some 30]%Q in
  Z.of_nat (length data) <= 18446744073709551615
  /\ 18446744073709551615 = 2 ^ 64 - 1
  /\ (AggregatorMapping_call (AggregatorMapping_init ls) data Median.median
        (-1)%Q None).1 = Ok [30%Q].
Proof. split; [by vm_compute|]. split; [reflexivity|by vm_compute]. Qed.

(** C6, as the code has it: when a row of the stored table has a token
    that [int] rejects, [load_csv_gz] raises the [ValueError] of [int],
    which names such a token of the table, and no mapping is returned. *)
Theorem rejected_token_raises (file : text) (rows : list (list text))
    (stop : option exn) (row : list text) (tok : text) :
  Csv.reader_records (TextIO.iter_lines file) = (rows, stop) ->
  row ∈ rows -> tok ∈ row -> PyInt.int_literal tok = None ->
  (exists row' tok',
     row' ∈ rows /\ tok' ∈ row' /\ PyInt.int_literal tok' = None
     /\ load_csv_gz file = Raise (ValueError tok'))
  /\ forall M, load_csv_gz file <> Ok M.
Proof.
  intros Hrows Hrow Htok Hrej.
  assert (PyInt.int tok = Raise (ValueError tok)) as Hint.
  { unfold PyInt.int. by rewrite Hrej. }
  destruct (traverse_raise PyInt.int row tok _ Htok Hint) as (t1 & e1 & _ & _ & Hrow1).
  destruct (traverse_raise (traverse PyInt.int) rows row e1 Hrow Hrow1)
    as (row' & e & Hrow' & Hraise' & Hall).
  apply traverse_raise_inv in Hraise' as (tok' & Htok' & Hint').
  unfold PyInt.int in Hint'.
  destruct (PyInt.int_literal tok') eqn:Hrej'; [done|]. injection Hint' as <-.
  assert (load_csv_gz file = Raise (ValueError tok')) as Hload.
  { unfold load_csv_gz. rewrite Hrows, Hall. done. }
  split; [by exists row', tok'|]. intros M. by rewrite Hload.
Qed.

Lemma rejected_token_raises_witness :
  let file := file_line "1,2" ++ file_line "3,x" in
  let row := [text_of_string "3"; text_of_string "x"] in
  Csv.reader_records (TextIO.iter_lines file)
  = ([[text_of_string "1"; text_of_string "2"]; row], None)
  /\ row ∈ [[text_of_string "1"; text_of_string "2"]; row]
  /\ text_of_string "x" ∈ row
  /\ PyInt.int_literal (text_of_string "x") = None
  /\ (exists row' tok',
        row' ∈ [[text_of_string "1"; text_of_string "2"]; row] /\ tok' ∈ row'
        /\ PyInt.int_literal tok' = None
        /\ load_csv_gz file = Raise (ValueError tok'))
  /\ forall M, load_csv_gz file <> Ok M.
Proof.
  intros file row.
  assert (Csv.reader_records (TextIO.iter_lines file)
          = ([[text_of_string "1"; text_of_string "2"]; row], None)) as Hrows
    by reflexivity.
  assert (row ∈ [[text_of_string "1"; text_of_string "2"]; row]) as Hrow
    by (apply elem_of_cons; right; apply elem_of_cons; by left).
  assert (text_of_string "x" ∈ row) as Htok
    by (apply elem_of_cons; right; apply elem_of_cons; by left).
  assert (PyInt.int_literal (text_of_string "x") = None) as Hrej by reflexivity.
  exact (conj Hrows (conj Hrow (conj Htok (conj Hrej
    (rejected_token_raises file _ None row _ Hrows Hrow Htok Hrej))))).
Defined.

(** C6 fails as stated: the exception does not tell the offending line.
    The first file has its rejected token on line 1, the second on
    line 2, in rows that differ, and both raise the same exception. *)
Lemma same_error_different_lines :
  let file1 := file_line "x,1" in
  let file2 := file_line "2,7" ++ file_line "2,x" in
  Csv.reader_records (TextIO.iter_lines file1)
  = ([[text_of_string "x"; text_of_string "1"]], None)
  /\ Csv.reader_records (TextIO.iter_lines file2)
     = ([[text_of_string "2"; text_of_string "7"];
         [text_of_string "2"; text_of_string "x"]], None)
  /\ load_csv_gz file1 = Raise (ValueError (text_of_string "x"))
  /\ load_csv_gz file2 = Raise (ValueError (text_of_string "x")).
Proof. by vm_compute. Qed.

(** C7: the size of a constructed mapping is the number of lists given,
    the array [__call__] returns has that length, for every fine array,
    reduction and fill value; and it returns an array whenever every
    index is accepted by the fine array. *)
Theorem coarse_length {V : Type} (ls : list (list Z)) (data : FineArray V)
    (method : Reduction V) (fv : V) (progress : option Z) :
  let M := AggregatorMapping_init ls in
  size M = length ls
  /\ (forall coarse,
        (AggregatorMapping_call M data method fv progress).1 = Ok coarse ->
        length coarse = size M)
  /\ (in_range data ls ->
      exists coarse, (AggregatorMapping_call M data method fv progress).1 = Ok coarse).
Proof.
  intros M. subst M.
  assert (size (AggregatorMapping_init ls) = length ls) as Hsize
    by (simpl; by rewrite length_map).
  split; [done|]. rewrite call_result, Hsize. split.
  - intros coarse Hc. by apply traverse_length in Hc.
  - intros Hr. apply traverse_ok.
    eapply Forall_impl; [exact Hr|]. intros idn. apply cell_value_ok.
Qed.

Lemma coarse_length_witness :
  let ls := [[0; 2]; []; [1]] in
  let data := [Some 10; Some 20; Some 30]%Q in
  in_range data ls
  /\ size (AggregatorMapping_init ls) = 3%nat
  /\ exists coarse,
       (AggregatorMapping_call (AggregatorMapping_init ls) data Median.median
          (-999)%Q None).1 = Ok coarse
       /\ length coarse = 3%nat.
Proof.
  intros ls data.
  assert (in_range data ls) as Hr.
  { unfold in_range, valid_index. repeat constructor; simpl; lia. }
  destruct (coarse_length ls data Median.median (-999)%Q None)
    as (Hsize & Hlen & Hret).
  destruct (Hret Hr) as [coarse Hc].
  refine (conj Hr (conj Hsize _)).
  exists coarse. split; [exact Hc|]. exact (Hlen coarse Hc).
Defined.

(** C8: [progress] only adds printed lines: the object the builder
    makes and the outcome of [__call__] are the same for every value of
    [progress] as with progress reports off. *)
Theorem progress_is_advisory {Path : Type} `{PathOps Path} {V : Type}
    (paths : list Path) (points : list Point) (self : AggregatorMapping)
    (data : FineArray V) (method : Reduction V) (fv : V) (progress : option Z) :
  (Aggregator_init paths points progress).1 = (Aggregator_init paths points None).1
  /\ (AggregatorMapping_call self data method fv progress).1
     = (AggregatorMapping_call self data method fv None).1.
Proof.
  split; [|apply call_progress].
  unfold Aggregator_init. simpl.
  destruct (build_spec paths points progress) as [-> _].
  by destruct (build_spec paths points None) as [-> _].
Qed.

(** C9, as the code has it: the constructor copies the outer sequence
    into a new list, which holds the elements of the argument (the
    references to the lists passed in, not copies of the lists). The
    mapping then has those lists, its size is their number, and a later
    change of the outer sequence the caller passed in leaves its index
    lists as they are. *)
Theorem outer_sequence_copied (h h' : Store.heap) (arg : Store.loc)
    (self : Store.object) (elems : list Store.value) (ls : list (list Z)) :
  Store.init h arg = Some (h', self) ->
  h !! arg = Some elems ->
  mapM (Store.read_list h) elems = Some ls ->
  Store.self_indices self <> arg
  /\ h' !! Store.self_indices self = Some elems
  /\ Store.read_indices h' self = Some ls
  /\ Store.self_size self = length ls
  /\ forall f, Store.read_indices (Store.mutate f arg h') self = Some ls.
Proof.
  intros Hinit Harg Hls.
  destruct (StoreFacts.init_fresh h arg h' self Hinit)
    as (elems' & Harg' & Hne & Hfresh & -> & Hsize).
  assert (elems' = elems) as -> by congruence.
  set (l := Store.self_indices self) in *.
  assert (mapM (Store.read_list (<[l := elems]> h)) elems = Some ls) as Hls'.
  { apply (StoreFacts.mapM_agree (Store.read_list h)); [|done].
    intros [z|l0] y _; simpl; [done|].
    destruct (h !! l0) as [e0|] eqn:Hl0; [|done].
    assert (l <> l0) by congruence.
    by rewrite lookup_insert_ne, Hl0. }
  split; [done|]. split; [by rewrite lookup_insert_eq|]. split; [|split].
  - unfold Store.read_indices. fold l. by rewrite lookup_insert_eq.
  - rewrite Hsize. by apply length_mapM in Hls.
  - intros f. unfold Store.read_indices, Store.mutate. fold l.
    rewrite lookup_alter_ne, lookup_insert_eq by done.
    apply (StoreFacts.mapM_agree (Store.read_list (<[l := elems]> h))); [|done].
    intros [z|l0] y Hin; simpl; [done|].
    destruct (decide (l0 = arg)) as [->|Hl0].
    + rewrite lookup_insert_ne, Harg by done.
      intros Hints. destruct (StoreFacts.as_int_ref elems y arg Hints Hin).
    + by rewrite lookup_alter_ne.
Qed.

Lemma outer_sequence_copied_witness :
  let h : Store.heap :=
    {[ 1%positive := [Store.VRef 2%positive; Store.VRef 3%positive];
       2%positive := [Store.VInt 4; Store.VInt 7];
       3%positive := [] ]} in
  exists h' self,
    Store.init h 1%positive = Some (h', self)
    /\ h !! 1%positive = Some [Store.VRef 2%positive; Store.VRef 3%positive]
    /\ mapM (Store.read_list h) [Store.VRef 2%positive; Store.VRef 3%positive] = Some [[4; 7]; []]
    /\ Store.self_indices self <> 1%positive
    /\ h' !! Store.self_indices self = Some [Store.VRef 2%positive; Store.VRef 3%positive]
    /\ Store.read_indices h' self = Some [[4; 7]; []]
    /\ Store.self_size self = 2%nat
    /\ forall f, Store.read_indices (Store.mutate f 1%positive h') self = Some [[4; 7]; []].
Proof.
  intros h.
  destruct (Store.init h 1%positive) as [[h' self]|] eqn:Hinit; [|by vm_compute in Hinit].
  assert (h !! 1%positive = Some [Store.VRef 2%positive; Store.VRef 3%positive]) as Harg by reflexivity.
  assert (mapM (Store.read_list h) [Store.VRef 2%positive; Store.VRef 3%positive] = Some [[4; 7]; []])
    as Hls by reflexivity.
  exists h', self.
  exact (conj eq_refl (conj Harg (conj Hls
    (outer_sequence_copied h h' 1%positive self _ _ Hinit Harg Hls)))).
Defined.

(** C9 fails as stated: the index lists are not copied. After the
    caller appends to a list it passed in, the mapping has the longer
    list. *)
Lemma inner_list_shared :
  let h : Store.heap :=
    {[ 1%positive := [Store.VRef 2%positive]; 2%positive := [Store.VInt 1; Store.VInt 2] ]} in
  exists h' self,
    Store.init h 1%positive = Some (h', self)
    /\ Store.passed_in h 1%positive 2%positive
    /\ Store.read_indices h' self = Some [[1; 2]]
    /\ Store.read_indices
         (Store.mutate (fun l => l ++ [Store.VInt 3]) 2%positive h') self
       = Some [[1; 2; 3]].
Proof.
  intros h. eexists _, _. split; [reflexivity|]. split.
  - right. exists [Store.VRef 2%positive]. split; [reflexivity|apply list_elem_of_here].
  - split; by vm_compute.
Qed.

(** C10: every index list the builder makes is strictly increasing,
    hence without duplicates, and its entries are positions in the
    point sequence. *)
Theorem index_lists_increasing {Path : Type} `{PathOps Path} (paths : list Path)
    (points : list Point) (progress : option Z) :
  Forall (fun idn =>
            StronglySorted Z.lt idn /\ NoDup idn
            /\ Forall (fun e => 0 <= e < Z.of_nat (length points)) idn)
    (indices (mapping (Aggregator_init paths points progress).1)).
Proof.
  simpl. destruct (build_spec paths points progress) as [-> _].
  apply Forall_forall. intros idn (path & -> & _)%list_elem_of_fmap.
  assert (StronglySorted Z.lt (cell_indices points path)) as Hsorted.
  { unfold cell_indices. destruct (Bbox.any _); [|constructor].
    apply where_from_sorted. }
  split; [done|]. split; [by apply strictly_increasing_NoDup|].
  unfold cell_indices. destruct (Bbox.any _); [|constructor].
  pose proof (where_from_bounds (contains_points path points) 0) as Hb.
  unfold contains_points in Hb. rewrite length_map in Hb. exact Hb.
Qed.


(** * Further properties of the builder *)

Lemma elem_of_where_from mask : forall i e,
  e ∈ where_from i mask
  <-> exists j, e = Z.of_nat (i + j) /\ mask !! j = Some true.
Proof.
  induction mask as [|b mask IH]; intros i e; simpl.
  - split; [by intros ?%elem_of_nil|by intros (j & _ & ?)].
  - assert (e ∈ where_from (S i) mask
            <-> exists j, e = Z.of_nat (i + S j) /\ mask !! j = Some true) as IH'.
    { rewrite IH. split; intros (j & -> & Hj); exists j; (split; [f_equal; lia|done]). }
    destruct b.
    + rewrite elem_of_cons, IH'. split.
      * intros [->|(j & -> & Hj)]; [exists 0%nat|exists (S j)]; simpl; split; try done.
        f_equal; lia.
      * intros ([|j] & -> & Hj); [left; f_equal; lia|right; by exists j].
    + rewrite IH'. split.
      * intros (j & -> & Hj). by exists (S j).
      * intros ([|j] & -> & Hj); [done|by exists j].
Qed.

Section BuilderMore.

Context {Path : Type} `{PathOps Path}.
Implicit Types (paths : list Path) (points : list Point) (progress : option Z).

Lemma elem_of_cell_indices points path e :
  e ∈ cell_indices points path
  <-> Bbox.any (Bbox.size (get_extents path)) = true
      /\ exists i pt, e = Z.of_nat i /\ points !! i = Some pt
                      /\ contains_point path pt = true.
Proof.
  unfold cell_indices, np_where, contains_points.
  destruct (Bbox.any _).
  - rewrite elem_of_where_from. split.
    + intros (j & -> & Hj). split; [done|].
      rewrite list_lookup_fmap in Hj.
      destruct (points !! j) as [pt|] eqn:Hpt; [|done].
      injection Hj as Hj. by exists j, pt.
    + intros (_ & i & pt & -> & Hpt & Hc). exists i.
      split; [done|]. by rewrite list_lookup_fmap, Hpt, <- Hc.
  - split; [by intros ?%elem_of_nil|by intros [? _]].
Qed.

(** X1: the builder makes one index list per path, and [size] is their
    number. *)
Theorem builder_one_list_per_path paths points progress :
  let self := mapping (Aggregator_init paths points progress).1 in
  length (indices self) = length paths /\ size self = length (indices self).
Proof.
  simpl. destruct (build_spec paths points progress) as [-> _].
  by rewrite length_map.
Qed.

(** X2: the index list of the path at position [k] holds exactly the
    positions of the points the path contains, when the path has some
    extent. *)
Theorem builder_membership paths points progress k path :
  paths !! k = Some path ->
  exists idn,
    indices (mapping (Aggregator_init paths points progress).1) !! k = Some idn
    /\ forall e,
         e ∈ idn
         <-> Bbox.any (Bbox.size (get_extents path)) = true
             /\ exists i pt, e = Z.of_nat i /\ points !! i = Some pt
                             /\ contains_point path pt = true.
Proof.
  intros Hk. exists (cell_indices points path). split.
  - simpl. destruct (build_spec paths points progress) as [-> _].
    by rewrite list_lookup_fmap, Hk.
  - apply elem_of_cell_indices.
Qed.

(** X3: the position of a point occurs in as many index lists as there
    are paths with some extent that contain the point; so it occurs in
    exactly one list when exactly one such path contains it. *)
Theorem builder_counts_owners paths points progress n pt :
  points !! n = Some pt ->
  count_lists (Z.of_nat n) (indices (mapping (Aggregator_init paths points progress).1))
  = count_paths pt paths.
Proof.
  intros Hn. simpl. destruct (build_spec paths points progress) as [-> _].
  unfold count_lists, count_paths.
  induction paths as [|path paths IH]; [done|].
  simpl. rewrite !filter_cons.
  assert (Z.of_nat n ∈ cell_indices points path
          <-> Bbox.any (Bbox.size (get_extents path)) = true
              /\ contains_point path pt = true) as Hiff.
  { rewrite elem_of_cell_indices. split.
    - intros (Hany & i & pt' & Hi & Hpt & Hc).
      apply Nat2Z.inj in Hi as <-. by assert (pt' = pt) as <- by congruence.
    - intros [Hany Hc]. split; [done|]. by exists n, pt. }
  destruct (decide (Z.of_nat n ∈ cell_indices points path)) as [Hin|Hin],
    (decide (Bbox.any (Bbox.size (get_extents path)) = true
             /\ contains_point path pt = true)) as [Hp|Hp];
    simpl; rewrite ?IH; try done; tauto.
Qed.

End BuilderMore.

Lemma builder_membership_witness :
  let cell0 := Polygon.mk (0, 0)%Q [(1, 0); (1, 1); (0, 1)]%Q in
  let cell1 := Polygon.mk (1, 0)%Q [(2, 0); (2, 1); (1, 1)]%Q in
  let points := [(1 # 2, 1 # 2); (3 # 2, 1 # 2)]%Q in
  [cell0; cell1] !! 1%nat = Some cell1
  /\ exists idn,
       indices (mapping (Aggregator_init [cell0; cell1] points None).1) !! 1%nat
       = Some idn
       /\ forall e,
            e ∈ idn
            <-> Bbox.any (Bbox.size (get_extents cell1)) = true
                /\ exists i pt, e = Z.of_nat i /\ points !! i = Some pt
                                /\ contains_point cell1 pt = true.
Proof.
  intros cell0 cell1 points.
  assert ([cell0; cell1] !! 1%nat = Some cell1) as Hk by reflexivity.
  exact (conj Hk (builder_membership [cell0; cell1] points None 1 cell1 Hk)).
Defined.

Lemma builder_counts_owners_witness :
  let cell0 := Polygon.mk (0, 0)%Q [(1, 0); (1, 1); (0, 1)]%Q in
  let cell1 := Polygon.mk (1, 0)%Q [(2, 0); (2, 1); (1, 1)]%Q in
  let points := [(1 # 2, 1 # 2); (3 # 2, 1 # 2)]%Q in
  points !! 1%nat = Some (3 # 2, 1 # 2)%Q
  /\ count_lists 1 (indices (mapping (Aggregator_init [cell0; cell1] points None).1))
     = count_paths (3 # 2, 1 # 2)%Q [cell0; cell1].
Proof.
  intros cell0 cell1 points.
  assert (points !! 1%nat = Some (3 # 2, 1 # 2)%Q) as Hn by reflexivity.
  exact (conj Hn (builder_counts_owners [cell0; cell1] points None 1 _ Hn)).
Defined.

(** ** What the loops print *)

Lemma report_off progress n total :
  truthy progress = false -> report progress n total = [].
Proof.
  unfold truthy, report. destruct progress as [p|]; [|done].
  by intros ->.
Qed.

Lemma reports_off progress total first cells :
  truthy progress = false -> reports progress total first cells = [].
Proof.
  intros Hoff. unfold reports. revert first.
  induction cells as [|cells IH]; intros first; simpl; [done|].
  by rewrite report_off, IH.
Qed.

Section BuilderOutput.

Context {Path : Type} `{PathOps Path}.
Implicit Types (paths : list Path) (points : list Point) (progress : option Z).

Lemma build_step_out points progress self_size i path st :
  (truthy progress = true -> counter st = Z.of_nat i) ->
  out (build_step points progress self_size i path st)
  = out st ++ report progress (Z.of_nat i) self_size
  /\ (truthy progress = true ->
      counter (build_step points progress self_size i path st) = Z.of_nat (S i)).
Proof.
  intros Hc. unfold build_step.
  destruct (truthy progress) eqn:Hp.
  - rewrite (Hc eq_refl).
    destruct (Bbox.any _); simpl; [destruct (0 <? length _)%nat; simpl|];
      (split; [done|intros _; lia]).
  - rewrite (report_off progress _ _ Hp), app_nil_r.
    destruct (Bbox.any _); simpl; [destruct (0 <? length _)%nat; simpl|];
      (split; [done|done]).
Qed.

Lemma build_loop_out points progress self_size paths : forall i st,
  (truthy progress = true -> counter st = Z.of_nat i) ->
  out (build_loop points progress self_size i paths st)
  = out st ++ reports progress self_size i (length paths).
Proof.
  induction paths as [|path paths IH]; intros i st Hc; simpl.
  - by rewrite app_nil_r.
  - destruct (build_step_out points progress self_size i path st Hc) as [Hout Hc'].
    rewrite (IH (S i) _ Hc'), Hout, <- app_assoc. done.
Qed.

(** X5: the builder prints one line for each position (from 0) that
    [progress] divides, then the closing line; with progress reports
    off it prints nothing. *)
Theorem builder_output paths points progress :
  (Aggregator_init paths points progress).2
  = reports progress (length paths) 0 (length paths)
    ++ closing progress MappingCompleted
  /\ (truthy progress = false -> (Aggregator_init paths points progress).2 = []).
Proof.
  assert ((Aggregator_init paths points progress).2
          = reports progress (length paths) 0 (length paths)
            ++ closing progress MappingCompleted) as Hout.
  { unfold Aggregator_init, build. simpl.
    rewrite build_loop_out by done. done. }
  split; [done|]. intros Hoff. rewrite Hout, reports_off by done.
  unfold closing. by rewrite Hoff.
Qed.

End BuilderOutput.

Section CallMore.

Context {V : Type}.
Implicit Types (data : FineArray V) (method : Reduction V).
Implicit Types (fv : V) (idx : list (list Z)) (progress : option Z).

(** What the loop has printed when it ends: the lines of all cells when
    it returns, and when it raises the lines up to the cell [k] whose
    gathering raised, which is the first cell that does. *)
Lemma call_loop_trace data method fv progress total idx :
  forall n pre out0, length pre = n ->
    let r := call_loop data method fv progress total n idx
               (pre ++ replicate (length idx) fv) out0 in
    (forall c, r.1 = Ok c ->
       r.2 = out0 ++ reports progress total n (length idx))
    /\ (forall e, r.1 = Raise e ->
          exists k idn,
            idx !! k = Some idn /\ idn <> [] /\ take data idn = Raise e
            /\ (forall j idn', (j < k)%nat -> idx !! j = Some idn' ->
                  exists v, cell_value data method fv idn' = Ok v)
            /\ r.2 = out0 ++ reports progress total n (S k)).
Proof.
  induction idx as [|idn idx IH]; intros n pre out0 Hn; simpl.
  - split; [intros c _; by rewrite app_nil_r|done].
  - assert (forall v : V,
      cell_value data method fv idn = Ok v ->
      let r := call_loop data method fv progress total (S n) idx
                 ((pre ++ [v]) ++ replicate (length idx) fv)
                 (out0 ++ report progress (Z.of_nat n) total) in
      (forall c, r.1 = Ok c ->
         r.2 = out0 ++ reports progress total n (S (length idx)))
      /\ (forall e, r.1 = Raise e ->
            exists k idn',
              (idn :: idx) !! k = Some idn' /\ idn' <> [] /\ take data idn' = Raise e
              /\ (forall j idn'', (j < k)%nat -> (idn :: idx) !! j = Some idn'' ->
                    exists v', cell_value data method fv idn'' = Ok v')
              /\ r.2 = out0 ++ reports progress total n (S k))) as Hnext.
    { intros v Hv.
      destruct (IH (S n) (pre ++ [v]) (out0 ++ report progress (Z.of_nat n) total))
        as [Hok Hraise]; [rewrite length_app; simpl; lia|].
      split.
      - intros c Hc. rewrite (Hok c Hc), <- app_assoc. done.
      - intros e He. destruct (Hraise e He) as (k & idn' & Hk & Hne & Ht & Hbefore & Hout).
        exists (S k), idn'. repeat split; try done.
        + intros [|j] idn'' Hj; simpl.
          * intros [= <-]. by exists v.
          * apply Hbefore. lia.
        + rewrite Hout, <- app_assoc. done. }
    destruct idn as [|i idn].
    + replace (pre ++ fv :: replicate (length idx) fv)
        with ((pre ++ [fv]) ++ replicate (length idx) fv) by by rewrite <- app_assoc.
      by apply Hnext.
    + destruct (take data (i :: idn)) as [g|e] eqn:Hg; simpl.
      * unfold setitem. rewrite length_app. simpl. rewrite length_replicate.
        destruct (Nat.ltb_spec n (length pre + S (length idx))); [|lia].
        replace (<[n := where_masked fv (method g)]>
                   (pre ++ fv :: replicate (length idx) fv))
          with ((pre ++ [where_masked fv (method g)]) ++ replicate (length idx) fv).
        2:{ rewrite <- app_assoc. simpl. subst n.
            rewrite insert_app_r_alt by lia. by rewrite Nat.sub_diag. }
        apply Hnext. unfold cell_value. by rewrite Hg.
      * split; [done|]. intros e' [= <-]. exists 0%nat, (i :: idn).
        repeat split; try done; [intros j ? ?; lia|].
        unfold reports. simpl. by rewrite app_nil_r.
Qed.

(** X6: when [__call__] returns an array it has printed the progress
    lines of all cells and then the closing line; when it raises it
    has printed the progress lines of the cells up to the first cell
    whose gathering raises, that cell included, and no closing line. *)
Theorem call_output ls data method fv progress :
  let r := AggregatorMapping_call (AggregatorMapping_init ls) data method fv progress in
  (forall c, r.1 = Ok c ->
     r.2 = reports progress (length ls) 0 (length ls)
           ++ closing progress AggregationCompleted)
  /\ (forall e, r.1 = Raise e ->
        exists k idn,
          ls !! k = Some idn /\ idn <> [] /\ take data idn = Raise e
          /\ (forall j idn', (j < k)%nat -> ls !! j = Some idn' ->
                exists v, cell_value data method fv idn' = Ok v)
          /\ r.2 = reports progress (length ls) 0 (S k)).
Proof.
  unfold AggregatorMapping_call, AggregatorMapping_init. simpl.
  rewrite map_id.
  destruct (call_loop_trace data method fv progress (length ls) ls 0 [] [] eq_refl)
    as [Hok Hraise]. simpl in Hok, Hraise.
  destruct (call_loop _ _ _ _ _ _ _ _ _) as [[c|e] out1]; simpl in *.
  - split; [|done]. intros c' _. by rewrite (Hok c eq_refl).
  - split; [done|]. intros e' [= <-]. by apply Hraise.
Qed.

Lemma traverse_ok_inv {A B} (f : A -> result B) l : forall ys,
  traverse f l = Ok ys -> Forall2 (fun x y => f x = Ok y) l ys.
Proof.
  induction l as [|x l IH]; intros ys; simpl.
  - intros [= <-]. constructor.
  - destruct (f x) as [y|e] eqn:Hx; simpl; [|done].
    destruct (traverse f l) as [ys'|e]; simpl; [|done].
    intros [= <-]. constructor; [done|by apply IH].
Qed.

Lemma getitem_ok_inv data i x :
  getitem data i = Ok x ->
  valid_index (length data) i
  /\ data !! Z.to_nat (normalize (length data) i) = Some x.
Proof.
  unfold getitem, valid_index, normalize. cbv zeta.
  set (len := Z.of_nat (length data)).
  set (j := if i <? 0 then i + len else i).
  destruct (Z.leb_spec 0 j), (Z.ltb_spec j len); simpl; try done.
  destruct (data !! Z.to_nat j) as [y|] eqn:Hj; [|done].
  intros [= <-]. split; [|done]. subst j. destruct (Z.ltb_spec i 0); lia.
Qed.

Lemma take_ok_inv data idn g :
  Forall (fun i => in_int64 i = true) idn ->
  take data idn = Ok g ->
  Forall (valid_index (length data)) idn
  /\ Forall2 (fun i x => data !! Z.to_nat (normalize (length data) i) = Some x) idn g.
Proof.
  intros H64. rewrite (take_int64 data idn H64).
  intros Hg%traverse_ok_inv. split.
  - eapply Forall2_Forall_l; [exact Hg|].
    apply Forall_forall. intros x _ i Hx. by apply getitem_ok_inv in Hx as [? _].
  - eapply Forall2_impl; [exact Hg|]. intros i x Hx.
    by apply getitem_ok_inv in Hx as [_ ?].
Qed.

Lemma cell_value_ok_inv data method fv idn v :
  Forall (fun i => in_int64 i = true) idn ->
  cell_value data method fv idn = Ok v -> Forall (valid_index (length data)) idn.
Proof.
  intros H64. destruct idn as [|i idn]; [constructor|]. unfold cell_value.
  destruct (take data (i :: idn)) as [g|e] eqn:Hg; [|done].
  intros _. by apply take_ok_inv in Hg as [? _].
Qed.

(** X7: on a mapping whose entries are integers of numpy's index type
    (from [-2^63] to [2^63 - 1]), [__call__] returns an array exactly
    when every entry of every index list is an index the fine array
    has, from [-len(data)] to [len(data) - 1]. *)
Theorem call_succeeds_iff ls data method fv progress :
  Forall (Forall (fun i => in_int64 i = true)) ls ->
  ((exists coarse,
      (AggregatorMapping_call (AggregatorMapping_init ls) data method fv progress).1
      = Ok coarse)
   <-> in_range data ls).
Proof.
  intros H64. rewrite call_result. split.
  - intros [coarse Hc%traverse_ok_inv]. unfold in_range.
    apply Forall_forall. intros idn Hidn.
    rewrite Forall_forall in H64. specialize (H64 idn Hidn).
    apply list_elem_of_lookup in Hidn as [k Hk].
    destruct (Forall2_lookup_l _ _ _ _ _ Hc Hk) as (v & _ & Hv).
    by eapply cell_value_ok_inv.
  - intros Hr. apply traverse_ok.
    eapply Forall_impl; [exact Hr|]. intros idn. apply cell_value_ok.
Qed.

(** X8: in the array [__call__] returns, a cell whose index list is
    non-empty and holds integers of numpy's index type has the
    reduction of the fine-array entries at the listed indices, taken in
    list order, or the fill value when that reduction is masked; this
    holds for every reduction. *)
Theorem call_cell_value ls data method fv progress coarse k idn :
  (AggregatorMapping_call (AggregatorMapping_init ls) data method fv progress).1
  = Ok coarse ->
  ls !! k = Some idn -> idn <> [] ->
  Forall (fun i => in_int64 i = true) idn ->
  exists gathered,
    Forall2 (fun i x => data !! Z.to_nat (normalize (length data) i) = Some x)
      idn gathered
    /\ coarse !! k = Some (where_masked fv (method gathered)).
Proof.
  rewrite call_result. intros Hc Hk Hne H64.
  destruct (traverse_lookup _ ls coarse k idn Hc Hk) as (v & Hv & Hkv).
  destruct idn as [|i idn]; [done|]. unfold cell_value in Hv.
  destruct (take data (i :: idn)) as [g|e] eqn:Hg; [|done].
  simpl in Hv. injection Hv as <-. exists g. split; [|done].
  by apply take_ok_inv in Hg as [_ ?].
Qed.

Lemma getitem_normalize data i :
  valid_index (length data) i ->
  getitem data (normalize (length data) i) = getitem data i.
Proof.
  intros Hi. destruct (getitem_ok data i Hi) as [x Hx]. rewrite Hx.
  apply getitem_ok_inv in Hx as [_ Hx].
  unfold valid_index, normalize in *. unfold getitem. cbv zeta.
  set (len := Z.of_nat (length data)) in *.
  set (j := if i <? 0 then i + len else i) in *.
  assert (0 <= j < len) as Hj by (subst j; destruct (Z.ltb_spec i 0); lia).
  destruct (Z.ltb_spec j 0); [lia|].
  destruct (Z.leb_spec 0 j), (Z.ltb_spec j len); try lia. simpl. by rewrite Hx.
Qed.

Lemma normalize_valid len i :
  valid_index len i -> valid_index len (normalize len i).
Proof.
  unfold valid_index, normalize. destruct (Z.ltb_spec i 0); lia.
Qed.

Lemma take_normalize data idn :
  Forall (valid_index (length data)) idn ->
  take data (map (normalize (length data)) idn) = take data idn.
Proof.
  intros Hidn. rewrite (take_within data idn Hidn), take_within.
  - induction Hidn as [|i idn Hi _ IH]; simpl; [done|].
    by rewrite getitem_normalize, IH.
  - apply Forall_fmap. eapply Forall_impl; [exact Hidn|].
    intros i. apply normalize_valid.
Qed.

(** X9: a negative entry [i] with [-len(data) <= i] is read from the
    end of the fine array: replacing every entry by the position numpy
    reads for it changes nothing in what [__call__] returns. *)
Theorem call_negative_wraps ls data method fv progress :
  in_range data ls ->
  (AggregatorMapping_call (AggregatorMapping_init ls) data method fv progress).1
  = (AggregatorMapping_call
       (AggregatorMapping_init (map (map (normalize (length data))) ls))
       data method fv progress).1.
Proof.
  intros Hr. rewrite !call_result.
  induction Hr as [|idn ls Hidn _ IH]; simpl; [done|].
  rewrite IH. f_equal.
  destruct idn as [|i idn]; [done|]. unfold cell_value.
  change (normalize (length data) i :: map (normalize (length data)) idn)
    with (map (normalize (length data)) (i :: idn)).
  by rewrite take_normalize.
Qed.

End CallMore.

Lemma call_succeeds_iff_witness :
  let ls := [[0; -1]; []] in
  let data := [Some 10; Some 20; Some 30]%Q in
  Forall (Forall (fun i => in_int64 i = true)) ls
  /\ ((exists coarse,
         (AggregatorMapping_call (AggregatorMapping_init ls) data Median.median
            (-1)%Q None).1 = Ok coarse)
      <-> in_range data ls).
Proof.
  intros ls data.
  assert (Forall (Forall (fun i => in_int64 i = true)) ls) as H64
    by (repeat constructor).
  exact (conj H64 (call_succeeds_iff ls data Median.median (-1)%Q None H64)).
Defined.

Lemma call_cell_value_witness :
  let ls := [[0; -1]; []] in
  let data := [Some 10; Some 20; Some 30]%Q in
  let coarse := [40 # 2; -1]%Q in
  (AggregatorMapping_call (AggregatorMapping_init ls) data Median.median (-1)%Q None).1
  = Ok coarse
  /\ ls !! 0%nat = Some [0; -1] /\ [0; -1] <> []
  /\ Forall (fun i => in_int64 i = true) [0; -1]
  /\ exists gathered,
       Forall2 (fun i x => data !! Z.to_nat (normalize (length data) i) = Some x)
         [0; -1] gathered
       /\ coarse !! 0%nat = Some (where_masked (-1)%Q (Median.median gathered)).
Proof.
  intros ls data coarse.
  assert ((AggregatorMapping_call (AggregatorMapping_init ls) data Median.median
             (-1)%Q None).1 = Ok coarse) as Hc by reflexivity.
  assert (ls !! 0%nat = Some [0; -1]) as Hk by reflexivity.
  assert ([0; -1] <> @nil Z) as Hne by discriminate.
  assert (Forall (fun i => in_int64 i = true) [0; -1]) as H64
    by (repeat constructor).
  exact (conj Hc (conj Hk (conj Hne (conj H64
    (call_cell_value ls data Median.median (-1)%Q None coarse 0 [0; -1]
       Hc Hk Hne H64))))).
Defined.

Lemma call_negative_wraps_witness :
  let ls := [[-1; 0]; [-3]] in
  let data := [Some 10; Some 20; Some 30]%Q in
  in_range data ls
  /\ (AggregatorMapping_call (AggregatorMapping_init ls) data Median.median
        (-1)%Q None).1
     = (AggregatorMapping_call
          (AggregatorMapping_init (map (map (normalize (length data))) ls))
          data Median.median (-1)%Q None).1.
Proof.
  intros ls data.
  assert (in_range data ls) as Hr.
  { unfold in_range, valid_index. repeat constructor; simpl; lia. }
  exact (conj Hr (call_negative_wraps ls data Median.median (-1)%Q None Hr)).
Defined.

(** ** The builder and the engine together *)

(** X10: on a mapping the builder made, [__call__] returns an array,
    with one value per path, for every fine array that has at least one
    entry per point, every reduction and every fill value. *)
Theorem built_mapping_aggregates {Path : Type} `{PathOps Path} {V : Type}
    (paths : list Path) (points : list Point) (progress : option Z)
    (data : FineArray V) (method : Reduction V) (fv : V) (progress' : option Z) :
  (length points <= length data)%nat ->
  exists coarse,
    (AggregatorMapping_call (mapping (Aggregator_init paths points progress).1)
       data method fv progress').1 = Ok coarse
    /\ length coarse = length paths.
Proof.
  intros Hlen. rewrite builder_mapping, call_result.
  destruct (traverse_ok (cell_value data method fv) (map (cell_indices points) paths))
    as [coarse Hc].
  - apply Forall_forall. intros idn (path & -> & _)%list_elem_of_fmap.
    apply cell_value_ok. unfold cell_indices.
    destruct (Bbox.any _); [|constructor].
    pose proof (where_from_bounds (contains_points path points) 0) as Hb.
    unfold contains_points in Hb. rewrite length_map in Hb.
    eapply Forall_impl; [exact Hb|]. unfold valid_index. simpl. intros e. lia.
  - exists coarse. split; [done|].
    apply traverse_length in Hc. by rewrite length_map in Hc.
Qed.

Lemma built_mapping_aggregates_witness :
  let cell0 := Polygon.mk (0, 0)%Q [(1, 0); (1, 1); (0, 1)]%Q in
  let cell1 := Polygon.mk (1, 0)%Q [(2, 0); (2, 1); (1, 1)]%Q in
  let points := [(1 # 2, 1 # 2); (3 # 2, 1 # 2)]%Q in
  let data := [Some 10; None; Some 30]%Q in
  (length points <= length data)%nat
  /\ exists coarse,
       (AggregatorMapping_call
          (mapping (Aggregator_init [cell0; cell1] points None).1)
          data Median.median (-1)%Q (Some 1)).1 = Ok coarse
       /\ length coarse = 2%nat.
Proof.
  intros cell0 cell1 points data.
  assert (length points <= length data)%nat as Hlen by (simpl; lia).
  exact (conj Hlen (built_mapping_aggregates [cell0; cell1] points None data
                      Median.median (-1)%Q (Some 1) Hlen)).
Defined.

(** * Further properties of the stored table *)

Lemma str_rows_plain (ls : list (list Z)) :
  Forall (Forall plain) (map (map PyInt.str) ls).
Proof.
  apply Forall_forall. intros row (idn & -> & _)%list_elem_of_fmap.
  apply Forall_forall. intros f (z & -> & _)%list_elem_of_fmap.
  apply CsvFacts.str_is_plain.
Qed.

Lemma writerows_plain rows :
  Forall (Forall plain) rows ->
  Csv.writerows rows = concat (map (fun fs => joined fs ++ Csv.lineterminator) rows).
Proof.
  unfold Csv.writerows. induction 1 as [|fs rows Hfs _ IH]; simpl; [done|].
  by rewrite (CsvFacts.writerow_plain fs Hfs), IH.
Qed.

(** X11: the file [save_csv_gz] writes has, for each index list in
    order, its entries in decimal joined by commas and then CR LF; an
    empty list gives an empty line, and nothing is quoted. *)
Theorem save_format (ls : list (list Z)) :
  save_csv_gz TextIO.posix_linesep (AggregatorMapping_init ls)
  = concat (map (fun idn => joined (map PyInt.str idn) ++ Csv.lineterminator) ls).
Proof.
  unfold save_csv_gz. rewrite write_posix. simpl indices. rewrite map_id.
  rewrite (writerows_plain _ (str_rows_plain ls)), map_map. done.
Qed.

(** X12: mappings with different index lists are saved as different
    files. *)
Theorem save_injective (ls1 ls2 : list (list Z)) :
  save_csv_gz TextIO.posix_linesep (AggregatorMapping_init ls1)
  = save_csv_gz TextIO.posix_linesep (AggregatorMapping_init ls2) ->
  ls1 = ls2.
Proof.
  intros Hsave. pose proof (load_save ls1) as H1. rewrite Hsave, load_save in H1.
  injection H1 as H1 _. by rewrite !map_id in H1.
Qed.

Lemma save_injective_witness :
  let ls := [[3; 1]; []] in
  save_csv_gz TextIO.posix_linesep (AggregatorMapping_init ls)
  = save_csv_gz TextIO.posix_linesep (AggregatorMapping_init ls)
  /\ ls = ls.
Proof.
  intros ls.
  assert (save_csv_gz TextIO.posix_linesep (AggregatorMapping_init ls)
          = save_csv_gz TextIO.posix_linesep (AggregatorMapping_init ls)) as Hs
    by reflexivity.
  exact (conj Hs (save_injective ls ls Hs)).
Defined.

(** X13: a mapping that [load_csv_gz] returned is saved and loaded back
    unchanged, however the file it came from was written. *)
Theorem loaded_mapping_roundtrip (file : text) (M : AggregatorMapping) :
  load_csv_gz file = Ok M ->
  load_csv_gz (save_csv_gz TextIO.posix_linesep M) = Ok M.
Proof.
  unfold load_csv_gz at 1.
  destruct (Csv.reader_records (TextIO.iter_lines file)) as [rows stop].
  destruct (traverse (traverse PyInt.int) rows) as [idx|e]; simpl; [|done].
  destruct stop; [done|]. intros [= <-]. apply load_save.
Qed.

Lemma loaded_mapping_roundtrip_witness :
  let file := file_line " 7,+1_0" ++ file_line "-0" in
  let M := AggregatorMapping_init [[7; 10]; [0]] in
  load_csv_gz file = Ok M
  /\ load_csv_gz (save_csv_gz TextIO.posix_linesep M) = Ok M.
Proof.
  intros file M.
  assert (load_csv_gz file = Ok M) as Hl by reflexivity.
  exact (conj Hl (loaded_mapping_roundtrip file M Hl)).
Defined.

(** ** Where the line separator is CR LF *)

Lemma write_app sep s1 s2 :
  TextIO.write sep (s1 ++ s2) = TextIO.write sep s1 ++ TextIO.write sep s2.
Proof. unfold TextIO.write. apply flat_map_app. Qed.

Lemma write_no_line_feed sep body :
  Forall (fun c => Ascii.eqb c TextIO.LF = false /\ Ascii.eqb c TextIO.CR = false) body ->
  TextIO.write sep body = body.
Proof.
  unfold TextIO.write. induction 1 as [|c body [Hlf _] _ IH]; simpl; [done|].
  by rewrite Hlf, IH.
Qed.

Lemma write_windows_rows rows :
  Forall (Forall plain) rows ->
  TextIO.write TextIO.windows_linesep (Csv.writerows rows)
  = concat (map (fun fs => joined fs ++ [TextIO.CR; TextIO.CR; TextIO.LF]) rows).
Proof.
  intros Hrows. rewrite (writerows_plain rows Hrows).
  induction Hrows as [|fs rows Hfs _ IH]; simpl; [done|].
  rewrite !write_app, IH.
  rewrite write_no_line_feed by by apply CsvFacts.joined_no_newline.
  reflexivity.
Qed.

Lemma iter_lines_crcrlf body rest :
  Forall (fun c => Ascii.eqb c TextIO.LF = false /\ Ascii.eqb c TextIO.CR = false) body ->
  TextIO.iter_lines (body ++ [TextIO.CR; TextIO.CR; TextIO.LF] ++ rest)
  = (body ++ [TextIO.LF]) :: [TextIO.LF] :: TextIO.iter_lines rest.
Proof.
  induction 1 as [|c body [Hlf Hcr] _ IH]; [done|].
  simpl app. simpl TextIO.iter_lines. rewrite Hlf, Hcr.
  simpl app in IH. by rewrite IH.
Qed.

Lemma reader_rows_blank rows :
  Forall (Forall plain) rows ->
  Csv.reader_records
    (flat_map (fun fs => [joined fs ++ [TextIO.LF]; [TextIO.LF]]) rows)
  = (flat_map (fun fs => [fs; []]) rows, None).
Proof.
  unfold Csv.reader_records.
  induction 1 as [|fs rows Hfs _ IH]; [done|].
  simpl flat_map. cbn [Csv.iternext].
  rewrite (CsvFacts.process_line_row fs Hfs). cbn [Csv.state Csv.fields].
  change (Csv.process_line Csv.parse_reset [TextIO.LF])
    with (Ok {| Csv.state := Csv.START_RECORD; Csv.field := []; Csv.fields := [] |}
          : result Csv.reader).
  cbn [Csv.state Csv.fields]. by rewrite IH.
Qed.

(** X14: where [os.linesep] is CR LF, the text layer turns the CR LF
    the writer ends each row with into CR CR LF, and [load_csv_gz]
    reads the saved file as the same index lists with an empty list
    after each one: twice as many cells. *)
Theorem windows_roundtrip (ls : list (list Z)) :
  load_csv_gz (save_csv_gz TextIO.windows_linesep (AggregatorMapping_init ls))
  = Ok (AggregatorMapping_init (with_blank_rows ls)).
Proof.
  unfold load_csv_gz, save_csv_gz. simpl indices. rewrite map_id.
  pose proof (str_rows_plain ls) as Hplain.
  rewrite (write_windows_rows _ Hplain).
  assert (TextIO.iter_lines
            (concat (map (fun fs => joined fs ++ [TextIO.CR; TextIO.CR; TextIO.LF])
                       (map (map PyInt.str) ls)))
          = flat_map (fun fs => [joined fs ++ [TextIO.LF]; [TextIO.LF]])
              (map (map PyInt.str) ls)) as ->.
  { induction Hplain as [|fs rows Hfs _ IH]; [done|]. simpl.
    rewrite <- app_assoc.
    rewrite (iter_lines_crcrlf (joined fs)) by by apply CsvFacts.joined_no_newline.
    by rewrite IH. }
  rewrite (reader_rows_blank _ Hplain).
  assert (flat_map (fun fs => [fs; []]) (map (map PyInt.str) ls)
          = map (map PyInt.str) (with_blank_rows ls)) as ->.
  { unfold with_blank_rows. induction ls as [|idn ls IH]; simpl; [done|].
    f_equal. f_equal. apply IH. by apply Forall_cons in Hplain as [_ ?]. }
  rewrite (traverse_map_ok (traverse PyInt.int) (map PyInt.str)); [done|].
  intros idn _. apply traverse_map_ok. intros z _. apply PyIntFacts.int_str.
Qed.

(** ** How [load_csv_gz] ends *)

Lemma line_shape_cons c l :
  Csv.is_newline c = false -> line_shape l -> line_shape (c :: l).
Proof.
  intros Hc (body & Hbody & Hl). exists (c :: body). split; [by constructor|].
  destruct Hl as [-> | ->]; [by left|by right].
Qed.

Lemma line_shape_lf : line_shape [TextIO.LF].
Proof. exists []. split; [constructor|by left]. Qed.

Lemma iter_lines_shape s : Forall line_shape (TextIO.iter_lines s).
Proof.
  remember (length s) as n eqn:Hn. revert s Hn.
  induction n as [n IH] using lt_wf_ind. intros s Hn.
  destruct s as [|c s]; [constructor|]. simpl in Hn. simpl.
  destruct (Ascii.eqb c TextIO.LF) eqn:Hlf.
  { constructor; [apply line_shape_lf|]. apply (IH (length s)); [lia|done]. }
  destruct (Ascii.eqb c TextIO.CR) eqn:Hcr.
  { destruct s as [|d s]; [repeat constructor; apply line_shape_lf|].
    destruct (Ascii.eqb d TextIO.LF).
    - constructor; [apply line_shape_lf|].
      apply (IH (length s)); [simpl in *; lia|done].
    - constructor; [apply line_shape_lf|].
      apply (IH (length (d :: s))); [lia|done]. }
  assert (Csv.is_newline c = false) as Hc by (unfold Csv.is_newline; by rewrite Hlf, Hcr).
  pose proof (IH (length s) ltac:(lia) s eq_refl) as Hs.
  destruct (TextIO.iter_lines s) as [|l ls].
  - constructor; [|constructor]. exists [c]. split; [by repeat constructor|by right].
  - apply Forall_cons in Hs as [Hl Hls]. constructor; [|done].
    by apply line_shape_cons.
Qed.

Lemma parse_char_inside r c :
  Csv.is_newline c = false -> Csv.state r <> Csv.EAT_CRNL ->
  exists r', Csv.parse_process_char r (Some c) = Ok r'
             /\ Csv.state r' <> Csv.EAT_CRNL.
Proof.
  intros Hc Hst. unfold Csv.parse_process_char, Csv.start_field.
  destruct (Csv.state r) eqn:E; try done; rewrite ?Hc;
    destruct (Ascii.eqb c Csv.quotechar), (Ascii.eqb c Csv.delimiter);
    eexists; (split; [reflexivity|simpl; congruence]).
Qed.

Lemma process_chars_inside body : forall r,
  Forall (fun c => Csv.is_newline c = false) body ->
  Csv.state r <> Csv.EAT_CRNL ->
  exists r', Csv.process_chars r body = Ok r' /\ Csv.state r' <> Csv.EAT_CRNL.
Proof.
  induction body as [|c body IH]; intros r Hbody Hst; simpl; [by exists r|].
  apply Forall_cons in Hbody as [Hc Hbody].
  destruct (parse_char_inside r c Hc Hst) as (r1 & -> & Hst1). simpl.
  by apply IH.
Qed.

Lemma parse_line_feed r :
  exists r', Csv.parse_process_char r (Some TextIO.LF) = Ok r'.
Proof.
  unfold Csv.parse_process_char, Csv.start_field.
  destruct (Csv.state r); by eexists.
Qed.

Lemma parse_end_of_line r :
  exists r', Csv.parse_process_char r None = Ok r'
             /\ Csv.state r' <> Csv.EAT_CRNL.
Proof.
  unfold Csv.parse_process_char, Csv.start_field.
  destruct (Csv.state r) eqn:E; eexists; (split; [reflexivity|simpl; congruence]).
Qed.

Lemma process_line_shape r l :
  line_shape l -> Csv.state r <> Csv.EAT_CRNL ->
  exists r', Csv.process_line r l = Ok r' /\ Csv.state r' <> Csv.EAT_CRNL.
Proof.
  intros (body & Hbody & Hl) Hst. unfold Csv.process_line.
  destruct (process_chars_inside body r Hbody Hst) as (r1 & Hr1 & Hst1).
  destruct Hl as [-> | ->].
  - rewrite CsvFacts.process_chars_app, Hr1. simpl.
    destruct (parse_line_feed r1) as [r2 ->]. simpl. apply parse_end_of_line.
  - rewrite Hr1. simpl. apply parse_end_of_line.
Qed.

Lemma iternext_no_exception lines : forall r,
  Forall line_shape lines -> Csv.state r <> Csv.EAT_CRNL ->
  (Csv.iternext r lines).2 = None.
Proof.
  induction lines as [|l lines IH]; intros r Hlines Hst; simpl.
  - by destruct (Csv.pending r).
  - apply Forall_cons in Hlines as [Hl Hlines].
    destruct (process_line_shape r l Hl Hst) as (r' & -> & Hst').
    destruct (Csv.state r') eqn:E; try (apply IH; [done|congruence]).
    pose proof (IH Csv.parse_reset Hlines ltac:(done)) as Hrest.
    by destruct (Csv.iternext Csv.parse_reset lines).
Qed.

Lemma reader_no_exception file :
  (Csv.reader_records (TextIO.iter_lines file)).2 = None.
Proof.
  apply iternext_no_exception; [apply iter_lines_shape|done].
Qed.

Lemma traverse_raise_first {A B} (f : A -> result B) l e :
  traverse f l = Raise e ->
  exists l1 x l2, l = l1 ++ x :: l2
                  /\ Forall (fun y => exists z, f y = Ok z) l1 /\ f x = Raise e.
Proof.
  induction l as [|x l IH]; simpl; [done|].
  destruct (f x) as [y|e'] eqn:Hx; simpl.
  - destruct (traverse f l) as [ys|e']; simpl; [done|].
    intros [= ->]. destruct IH as (l1 & x' & l2 & -> & Hl1 & Hx'); [done|].
    exists (x :: l1), x', l2. split; [done|]. split; [|done].
    constructor; [by exists y|done].
  - intros [= ->]. exists [], x, l. by repeat split.
Qed.

Lemma int_ok_accepted tok z : PyInt.int tok = Ok z -> accepted tok.
Proof.
  unfold PyInt.int, accepted. by destruct (PyInt.int_literal tok).
Qed.

Lemma int_raise tok e :
  PyInt.int tok = Raise e -> e = ValueError tok /\ PyInt.int_literal tok = None.
Proof.
  unfold PyInt.int. destruct (PyInt.int_literal tok); [done|]. by intros [= <-].
Qed.

(** X15: when [load_csv_gz] fails with the [ValueError] of [int] for a
    token, that token is the first one, in reading order, that [int]
    rejects: every token of the records before it and every token
    before it in its record was accepted. *)
Theorem load_fails_at_first_rejected (file : text) (tok : text) :
  load_csv_gz file = Raise (ValueError tok) ->
  exists rows1 toks1 toks2 rows2 stop,
    Csv.reader_records (TextIO.iter_lines file)
    = (rows1 ++ (toks1 ++ tok :: toks2) :: rows2, stop)
    /\ PyInt.int_literal tok = None
    /\ Forall (Forall accepted) rows1 /\ Forall accepted toks1.
Proof.
  unfold load_csv_gz. pose proof (reader_no_exception file) as Hstop.
  destruct (Csv.reader_records (TextIO.iter_lines file)) as [rows stop].
  simpl in Hstop. subst stop.
  destruct (traverse (traverse PyInt.int) rows) as [idx|e'] eqn:Hrows; [done|].
  simpl. intros [= ->].
  apply traverse_raise_first in Hrows as (rows1 & row & rows2 & -> & Hrows1 & Hrow).
  apply traverse_raise_first in Hrow as (toks1 & tok' & toks2 & -> & Htoks1 & Htok).
  apply int_raise in Htok as [[= <-] Hrej].
  exists rows1, toks1, toks2, rows2, None. repeat split; try done.
  - eapply Forall_impl; [exact Hrows1|]. intros row [zs Hzs%traverse_ok_inv].
    eapply Forall2_Forall_l; [exact Hzs|].
    apply Forall_forall. intros z _ t'. apply int_ok_accepted.
  - eapply Forall_impl; [exact Htoks1|]. intros t' [z Hz]. by eapply int_ok_accepted.
Qed.

Lemma load_fails_at_first_rejected_witness :
  let file := file_line "1,2" ++ file_line "3,x,y" in
  load_csv_gz file = Raise (ValueError (text_of_string "x"))
  /\ exists rows1 toks1 toks2 rows2 stop,
       Csv.reader_records (TextIO.iter_lines file)
       = (rows1 ++ (toks1 ++ text_of_string "x" :: toks2) :: rows2, stop)
       /\ PyInt.int_literal (text_of_string "x") = None
       /\ Forall (Forall accepted) rows1 /\ Forall accepted toks1.
Proof.
  intros file.
  assert (load_csv_gz file = Raise (ValueError (text_of_string "x"))) as Hl
    by reflexivity.
  exact (conj Hl (load_fails_at_first_rejected file _ Hl)).
Defined.

(** X17: the mapping [load_csv_gz] returns has one index list per
    record of the reader, in order, each entry the value of the token
    at its place, and [size] is the number of records. *)
Theorem load_content (file : text) (M : AggregatorMapping) :
  load_csv_gz file = Ok M ->
  exists rows,
    Csv.reader_records (TextIO.iter_lines file) = (rows, None)
    /\ size M = length rows
    /\ Forall2 (Forall2 (fun tok z => PyInt.int_literal tok = Some z))
         rows (indices M).
Proof.
  unfold load_csv_gz.
  destruct (Csv.reader_records (TextIO.iter_lines file)) as [rows stop].
  destruct (traverse (traverse PyInt.int) rows) as [idx|e] eqn:Hrows; [|done].
  simpl. destruct stop; [done|]. intros [= <-].
  exists rows. split; [done|]. simpl. rewrite map_id. split.
  - symmetry. by apply traverse_length in Hrows.
  - apply traverse_ok_inv in Hrows.
    eapply Forall2_impl; [exact Hrows|]. intros row zs Hzs%traverse_ok_inv.
    eapply Forall2_impl; [exact Hzs|]. intros t' z.
    unfold PyInt.int. destruct (PyInt.int_literal t'); [|done]. by intros [= ->].
Qed.

Lemma load_content_witness :
  let file := file_line "4, 5" ++ Csv.lineterminator ++ text_of_string "6" in
  let M := AggregatorMapping_init [[4; 5]; []; [6]] in
  load_csv_gz file = Ok M
  /\ exists rows,
       Csv.reader_records (TextIO.iter_lines file) = (rows, None)
       /\ size M = length rows
       /\ Forall2 (Forall2 (fun tok z => PyInt.int_literal tok = Some z))
            rows (indices M).
Proof.
  intros file M.
  assert (load_csv_gz file = Ok M) as Hl by reflexivity.
  exact (conj Hl (load_content file M Hl)).
Defined.

(** * Further properties of the constructor on shared objects *)

(** X18: the constructor allocates one list, at a location that was
    free, and leaves every object that existed, its argument included,
    as it was. *)
Theorem init_allocates_only (h h' : Store.heap) (arg : Store.loc)
    (self : Store.object) :
  Store.init h arg = Some (h', self) ->
  h !! Store.self_indices self = None
  /\ forall l, l <> Store.self_indices self -> h' !! l = h !! l.
Proof.
  intros Hinit.
  destruct (StoreFacts.init_fresh h arg h' self Hinit)
    as (elems & _ & _ & Hfresh & -> & _).
  split; [done|]. intros l Hl. by rewrite lookup_insert_ne.
Qed.

Lemma init_allocates_only_witness :
  let h : Store.heap :=
    {[ 1%positive := [Store.VRef 2%positive]; 2%positive := [Store.VInt 5] ]} in
  exists h' self,
    Store.init h 1%positive = Some (h', self)
    /\ h !! Store.self_indices self = None
    /\ forall l, l <> Store.self_indices self -> h' !! l = h !! l.
Proof.
  intros h.
  destruct (Store.init h 1%positive) as [[h' self]|] eqn:Hinit;
    [|by vm_compute in Hinit].
  exists h', self.
  exact (conj eq_refl (init_allocates_only h h' 1%positive self Hinit)).
Defined.

(** X19: the index list at position [k] of a constructed mapping is
    the caller's list object: after any in-place change of that object
    which leaves it a list of integers, the mapping has the changed
    list at position [k], and as many lists as before. *)
Theorem inner_list_follows_caller (h h' : Store.heap) (arg : Store.loc)
    (self : Store.object) (elems : list Store.value) (ls : list (list Z))
    (k : nat) (l0 : Store.loc) (e0 : list Store.value)
    (f : list Store.value -> list Store.value) (zs : list Z) :
  Store.init h arg = Some (h', self) ->
  h !! arg = Some elems ->
  mapM (Store.read_list h) elems = Some ls ->
  elems !! k = Some (Store.VRef l0) ->
  h !! l0 = Some e0 ->
  mapM Store.as_int (f e0) = Some zs ->
  exists ls',
    Store.read_indices (Store.mutate f l0 h') self = Some ls'
    /\ ls' !! k = Some zs /\ length ls' = length ls.
Proof.
  intros Hinit Harg Hls Hk Hl0 Hzs.
  destruct (StoreFacts.init_fresh h arg h' self Hinit)
    as (elems' & Harg' & Hne & Hfresh & -> & Hsize).
  assert (elems' = elems) as -> by congruence.
  set (l := Store.self_indices self) in *.
  assert (l <> l0) as Hll0 by congruence.
  set (h2 := Store.mutate f l0 (<[l := elems]> h)).
  assert (h2 !! l0 = Some (f e0)) as Hh2.
  { unfold h2, Store.mutate. rewrite lookup_alter_eq, lookup_insert_ne by done.
    by rewrite Hl0. }
  assert (Forall (is_Some ∘ Store.read_list h2) elems) as Hsome.
  { apply mapM_Some_1 in Hls. eapply Forall2_Forall_l; [exact Hls|].
    apply Forall_forall. intros y _ [z|l1]; simpl; [done|].
    destruct (h !! l1) as [e1|] eqn:Hl1; [|done]. intros Hy.
    destruct (decide (l1 = l0)) as [->|Hl1l0].
    - rewrite Hh2. by rewrite Hzs.
    - unfold h2, Store.mutate.
      rewrite lookup_alter_ne, lookup_insert_ne, Hl1 by congruence.
      by rewrite Hy. }
  apply mapM_is_Some_2 in Hsome as [ls' Hls'].
  exists ls'. split; [|split].
  - unfold Store.read_indices. fold l. unfold h2, Store.mutate in *.
    by rewrite lookup_alter_ne, lookup_insert_eq by done.
  - apply mapM_Some_1 in Hls'.
    destruct (Forall2_lookup_l _ _ _ _ _ Hls' Hk) as (y & Hy & Hread).
    simpl in Hread. rewrite Hh2, Hzs in Hread. congruence.
  - apply length_mapM in Hls, Hls'. congruence.
Qed.

Lemma inner_list_follows_caller_witness :
  let h : Store.heap :=
    {[ 1%positive := [Store.VRef 2%positive; Store.VRef 3%positive];
       2%positive := [Store.VInt 4];
       3%positive := [Store.VInt 6; Store.VInt 8] ]} in
  let f := fun l : list Store.value => Store.VInt 9 :: l in
  exists h' self,
    Store.init h 1%positive = Some (h', self)
    /\ h !! 1%positive = Some [Store.VRef 2%positive; Store.VRef 3%positive]
    /\ mapM (Store.read_list h) [Store.VRef 2%positive; Store.VRef 3%positive]
       = Some [[4]; [6; 8]]
    /\ [Store.VRef 2%positive; Store.VRef 3%positive] !! 1%nat
       = Some (Store.VRef 3%positive)
    /\ h !! 3%positive = Some [Store.VInt 6; Store.VInt 8]
    /\ mapM Store.as_int (f [Store.VInt 6; Store.VInt 8]) = Some [9; 6; 8]
    /\ exists ls',
         Store.read_indices (Store.mutate f 3%positive h') self = Some ls'
         /\ ls' !! 1%nat = Some [9; 6; 8] /\ length ls' = 2%nat.
Proof.
  intros h f.
  destruct (Store.init h 1%positive) as [[h' self]|] eqn:Hinit;
    [|by vm_compute in Hinit].
  assert (h !! 1%positive = Some [Store.VRef 2%positive; Store.VRef 3%positive])
    as Harg by reflexivity.
  assert (mapM (Store.read_list h) [Store.VRef 2%positive; Store.VRef 3%positive]
          = Some [[4]; [6; 8]]) as Hls by reflexivity.
  assert ([Store.VRef 2%positive; Store.VRef 3%positive] !! 1%nat
          = Some (Store.VRef 3%positive)) as Hk by reflexivity.
  assert (h !! 3%positive = Some [Store.VInt 6; Store.VInt 8]) as Hl0 by reflexivity.
  assert (mapM Store.as_int (f [Store.VInt 6; Store.VInt 8]) = Some [9; 6; 8])
    as Hzs by reflexivity.
  exists h', self.
  exact (conj eq_refl (conj Harg (conj Hls (conj Hk (conj Hl0 (conj Hzs
    (inner_list_follows_caller h h' 1%positive self _ _ 1 3%positive _ f _
       Hinit Harg Hls Hk Hl0 Hzs))))))).
Defined.
